(** * wormhole-bot: the IRC protocol engine of [wormhole/server.py]

    A shallow embedding of the line parser ([IRCClient._read_message]), the
    dispatcher ([handle_event], [dispatch]), the connection state ([join],
    [send_message], [send_to_channel]), the bridge handlers
    ([contains_highlight], [ping_insights], [send_from_slack]) and the colour
    markup ([color_wrap]), followed by the properties proved about them.

    Python [str] values are sequences of Unicode code points and [bytes]
    values are sequences of bytes; exceptions are an explicit result type and
    the mutable objects ([IRCClient], the command registry, the logger, the
    IO loop's callback queue) are fields of one explicit state. *)

From Stdlib Require Import ZArith NArith List Bool Lia.
From Stdlib.Strings Require Import Ascii String Byte.
From stdpp Require Import base option list gmap.

Local Open Scope N_scope.

(** ** Text and bytes *)

(** A code point of a Python [str], a [str] and a [bytes]. *)
Abbreviation char := N (only parsing).
Abbreviation str := (list N) (only parsing).
Abbreviation bytes := (list byte) (only parsing).

(** A [str] literal of the source, from an ASCII literal. *)
Definition u (s : string) : str :=
  map N_of_ascii (list_ascii_of_string s).

(** A [bytes] literal of the source. *)
Definition b (s : string) : bytes :=
  map byte_of_ascii (list_ascii_of_string s).

Definition byte_of_N (n : N) : byte :=
  match Byte.of_N (n mod 256) with
  | Some x => x
  | None => x00
  end.

(** ** Exceptions *)

Inductive exn : Set :=
| IndexError
| ValueError
| AttributeError
| UnicodeDecodeError
| UnicodeEncodeError
| RequestException.

Inductive result (A : Type) : Type :=
| Ok (a : A)
| Raise (e : exn).
Arguments Ok {A} a.
Arguments Raise {A} e.

Definition rbind {A B} (r : result A) (k : A -> result B) : result B :=
  match r with
  | Ok a => k a
  | Raise e => Raise e
  end.

Notation "'try' x <- r ; k" := (rbind r (fun x => k))
  (at level 60, x name, r at next level, right associativity).

(** ** The [str] and [bytes] methods the source calls *)

(** [s.startswith(pre)] *)
Fixpoint startswith (pre s : str) : bool :=
  match pre, s with
  | [], _ => true
  | p :: pre', c :: s' => (p =? c) && startswith pre' s'
  | _ :: _, [] => false
  end.

(** Index of the first occurrence of [sub] in [s], if any. *)
Fixpoint index_of (sub s : str) : option nat :=
  if startswith sub s then Some 0%nat
  else match s with
       | [] => None
       | _ :: tl => S <$> index_of sub tl
       end.

(** [s.find(sub)]: the index, or -1 *)
Definition find (sub s : str) : Z :=
  match index_of sub s with
  | Some i => Z.of_nat i
  | None => (-1)%Z
  end.

(** [s.index(sub)]: the index, or ValueError *)
Definition index (sub s : str) : result Z :=
  match index_of sub s with
  | Some i => Ok (Z.of_nat i)
  | None => Raise ValueError
  end.

(** [sub in s] *)
Definition contains (sub s : str) : bool :=
  match index_of sub s with
  | Some _ => true
  | None => false
  end.

(** A slice bound of Python: negative counts from the end, both clamped. *)
Definition slice_bound (len : nat) (k : Z) : nat :=
  if (k <? 0)%Z then Z.to_nat (Z.max 0 (Z.of_nat len + k))
  else Z.to_nat (Z.min k (Z.of_nat len)).

(** [s[lo:hi]], either bound optional *)
Definition slice {A} (s : list A) (lo hi : option Z) : list A :=
  let n := length s in
  let a := match lo with Some k => slice_bound n k | None => 0%nat end in
  let z := match hi with Some k => slice_bound n k | None => n end in
  take (z - a) (drop a s).

(** [s[k]] for a non-negative or negative [k]: IndexError out of range *)
Definition item {A} (s : list A) (k : Z) : result A :=
  let n := Z.of_nat (length s) in
  let k' := if (k <? 0)%Z then (n + k)%Z else k in
  if (k' <? 0)%Z then Raise IndexError
  else match s !! Z.to_nat k' with
       | Some x => Ok x
       | None => Raise IndexError
       end.

(** [s.split(sep, 1)]: at most one split, at the first occurrence *)
Definition split1 (sep s : str) : list str :=
  match index_of sep s with
  | Some i => [take i s; drop (i + length sep) s]
  | None => [s]
  end.

(** [s.split(c)] for a separator of one character *)
Fixpoint split_on (c : char) (s : str) : list str :=
  match s with
  | [] => [[]]
  | x :: tl =>
    if x =? c then [] :: split_on c tl
    else match split_on c tl with
         | w :: ws => (x :: w) :: ws
         | [] => [[x]]
         end
  end.

(** [s.lstrip(chars)], [s.rstrip(chars)], [s.strip(chars)], the characters
    to strip given by a predicate *)
Fixpoint lstrip {A} (p : A -> bool) (s : list A) : list A :=
  match s with
  | [] => []
  | c :: tl => if p c then lstrip p tl else s
  end.

Fixpoint rstrip {A} (p : A -> bool) (s : list A) : list A :=
  match s with
  | [] => []
  | c :: tl =>
    match rstrip p tl with
    | [] => if p c then [] else [c]
    | tl' => c :: tl'
    end
  end.

Definition strip {A} (p : A -> bool) (s : list A) : list A :=
  rstrip p (lstrip p s).

(** Membership of a character in the argument of [strip(chars)] *)
Definition one_of (chars : str) (c : char) : bool :=
  existsb (N.eqb c) chars.

(** The characters [str.strip()] removes: those [str.isspace] accepts. *)
Definition isspace (c : char) : bool :=
  ((9 <=? c) && (c <=? 13)) || ((28 <=? c) && (c <=? 32))
  || (c =? 0x85) || (c =? 0xA0) || (c =? 0x1680)
  || ((0x2000 <=? c) && (c <=? 0x200A))
  || (c =? 0x2028) || (c =? 0x2029) || (c =? 0x202F)
  || (c =? 0x205F) || (c =? 0x3000).

(** [sep.join(parts)] *)
Fixpoint str_join (sep : str) (parts : list str) : str :=
  match parts with
  | [] => []
  | [x] => x
  | x :: tl => x ++ sep ++ str_join sep tl
  end.

(** [sub] occurs in [s]. *)
Definition substring (sub s : str) : Prop :=
  ∃ pre post, s = pre ++ sub ++ post.

(** ** UTF-8 *)

Definition continuation (n : N) : bool := (0x80 <=? n) && (n <=? 0xBF).

(** [raw.decode("utf-8")], strict: overlong forms, surrogates, code points
    past U+10FFFF and truncated sequences are refused. *)
Fixpoint utf8_decode (bs : bytes) : option str :=
  match bs with
  | [] => Some []
  | b0 :: r0 =>
    let n0 := Byte.to_N b0 in
    if n0 <? 0x80 then cons n0 <$> utf8_decode r0
    else if (0xC2 <=? n0) && (n0 <=? 0xDF) then
      match r0 with
      | b1 :: r1 =>
        let n1 := Byte.to_N b1 in
        if continuation n1
        then cons ((n0 - 0xC0) * 64 + (n1 - 0x80)) <$> utf8_decode r1
        else None
      | _ => None
      end
    else if (0xE0 <=? n0) && (n0 <=? 0xEF) then
      match r0 with
      | b1 :: b2 :: r2 =>
        let n1 := Byte.to_N b1 in
        let n2 := Byte.to_N b2 in
        let lo := if n0 =? 0xE0 then 0xA0 else 0x80 in
        let hi := if n0 =? 0xED then 0x9F else 0xBF in
        if (lo <=? n1) && (n1 <=? hi) && continuation n2
        then cons ((n0 - 0xE0) * 4096 + (n1 - 0x80) * 64 + (n2 - 0x80))
               <$> utf8_decode r2
        else None
      | _ => None
      end
    else if (0xF0 <=? n0) && (n0 <=? 0xF4) then
      match r0 with
      | b1 :: b2 :: b3 :: r3 =>
        let n1 := Byte.to_N b1 in
        let n2 := Byte.to_N b2 in
        let n3 := Byte.to_N b3 in
        let lo := if n0 =? 0xF0 then 0x90 else 0x80 in
        let hi := if n0 =? 0xF4 then 0x8F else 0xBF in
        if (lo <=? n1) && (n1 <=? hi) && continuation n2 && continuation n3
        then cons ((n0 - 0xF0) * 262144 + (n1 - 0x80) * 4096
                   + (n2 - 0x80) * 64 + (n3 - 0x80))
               <$> utf8_decode r3
        else None
      | _ => None
      end
    else None
  end.

Definition decode (raw : bytes) : result str :=
  match utf8_decode raw with
  | Some s => Ok s
  | None => Raise UnicodeDecodeError
  end.

(** The code points a [str] decoded from UTF-8 holds: no surrogate, nothing
    past U+10FFFF. *)
Definition scalar (c : char) : bool :=
  (c <? 0xD800) || ((0xE000 <=? c) && (c <? 0x110000)).

(** One code point in UTF-8; a surrogate has no encoding. *)
Definition utf8_encode_char (c : char) : option bytes :=
  if c <? 0x80 then Some [byte_of_N c]
  else if c <? 0x800 then
    Some [byte_of_N (0xC0 + c / 64); byte_of_N (0x80 + c mod 64)]
  else if c <? 0x10000 then
    if (0xD800 <=? c) && (c <=? 0xDFFF) then None
    else Some [byte_of_N (0xE0 + c / 4096);
               byte_of_N (0x80 + (c / 64) mod 64);
               byte_of_N (0x80 + c mod 64)]
  else if c <? 0x110000 then
    Some [byte_of_N (0xF0 + c / 262144);
          byte_of_N (0x80 + (c / 4096) mod 64);
          byte_of_N (0x80 + (c / 64) mod 64);
          byte_of_N (0x80 + c mod 64)]
  else None.

Fixpoint utf8_encode (s : str) : option bytes :=
  match s with
  | [] => Some []
  | c :: tl =>
    match utf8_encode_char c, utf8_encode tl with
    | Some x, Some y => Some (x ++ y)
    | _, _ => None
    end
  end.

(** [line.encode("utf-8")] *)
Definition encode (line : str) : result bytes :=
  match utf8_encode line with
  | Some bs => Ok bs
  | None => Raise UnicodeEncodeError
  end.

(** ** Events *)

(** [Event = namedtuple("Event", "raw line source nick user host code args msg channel")] *)
Record Event : Set := mkEvent {
  raw : bytes;
  line : str;
  source : option str;
  nick : option str;
  user : option str;
  host : option str;
  code : str;
  args : list str;
  msg : str;
  channel : option str
}.

(** ** The line parser: [IRCClient._read_message] up to the [Event] *)

(** The prefix of the line: [(source, nick, user, host, msg)] as lines
    145-157 leave them. *)
Definition parse_prefix (line : str)
  : result (option str * option str * option str * option str * str) :=
  try c0 <- item line 0;
  if c0 =? 58 (* ":" *) then
    try pos <- index (u " ") line;
    let source := slice line (Some 1%Z) (Some pos) in
    let msg := slice line (Some (pos + 1)%Z) None in
    let i := find (u "!") source in
    let j := find (u "@") source in
    if (0 <? i)%Z && (0 <? j)%Z then
      Ok (Some source,
          Some (slice source None (Some i)),
          Some (slice source (Some (i + 1)%Z) (Some j)),
          Some (slice source (Some (j + 1)%Z) None),
          msg)
    else Ok (Some source, None, None, None, msg)
  else Ok (None, None, None, None, line).

(** The command and its parameters: lines 159-162. *)
Definition parse_params (msg : str) : result (str * list str) :=
  let sp := split1 (u " :") msg in
  try sp0 <- item sp 0;
  match split_on 32 sp0 with
  | [] => Raise ValueError
  | code :: args =>
    if (length sp =? 2)%nat then
      try sp1 <- item sp 1;
      Ok (code, args ++ [sp1])
    else Ok (code, args)
  end.

(** The bytes [raw.rstrip(b'\r\n')] removes: any CR and LF at the end. *)
Definition is_crlf (x : byte) : bool := one_of [13; 10] (Byte.to_N x).

Definition parse (raw0 : bytes) : result Event :=
  let raw := rstrip is_crlf raw0 in
  try line <- decode raw;
  try pre <- parse_prefix line;
  let '(source, nick, user, host, msg) := pre in
  try ca <- parse_params msg;
  let '(code, args) := ca in
  try last <- item args (-1);
  try first <- item args 0;
  Ok (mkEvent raw line source nick user host code args last
        (if contains (u "#") first then Some first else None)).

(** The re-joining the specification speaks of (the source has no such
    function): the command and the arguments joined by spaces, the last
    argument prefixed with " :" when it contains a space. *)
Definition spec_rejoin (code : str) (args : list str) : str :=
  match last args with
  | None => code
  | Some l =>
    str_join (u " ") (code :: removelast args)
      ++ (if contains (u " ") l then u " :" else u " ") ++ l
  end.

(** The Event of the line [:nick!user@host PRIVMSG #chan :hello world]. *)
Definition hello_event : Event :=
  mkEvent (b ":nick!user@host PRIVMSG #chan :hello world")
    (u ":nick!user@host PRIVMSG #chan :hello world")
    (Some (u "nick!user@host")) (Some (u "nick")) (Some (u "user"))
    (Some (u "host")) (u "PRIVMSG") [u "#chan"; u "hello world"]
    (u "hello world") (Some (u "#chan")).

(** The Event of the line [PING :server.example]. *)
Definition ping_event : Event :=
  mkEvent (b "PING :server.example") (u "PING :server.example")
    None None None None (u "PING") [u "server.example"]
    (u "server.example") None.

(** The Event of [:alice!al@desk PRIVMSG #dev :the BUILD failed today]. *)
Definition build_event : Event :=
  mkEvent (b ":alice!al@desk PRIVMSG #dev :the BUILD failed today")
    (u ":alice!al@desk PRIVMSG #dev :the BUILD failed today")
    (Some (u "alice!al@desk")) (Some (u "alice")) (Some (u "al"))
    (Some (u "desk")) (u "PRIVMSG") [u "#dev"; u "the BUILD failed today"]
    (u "the BUILD failed today") (Some (u "#dev")).

(** The Event of [:alice!al@desk PRIVMSG wormhole :are you there], a
    message to the bot itself: no channel. *)
Definition private_event : Event :=
  mkEvent (b ":alice!al@desk PRIVMSG wormhole :are you there")
    (u ":alice!al@desk PRIVMSG wormhole :are you there")
    (Some (u "alice!al@desk")) (Some (u "alice")) (Some (u "al"))
    (Some (u "desk")) (u "PRIVMSG") [u "wormhole"; u "are you there"]
    (u "are you there") None.

(** ** Settings, logging and the state of the process *)

(** An entry of a highlight list in [settings.json]: a JSON string, or a JSON
    list of strings ([isinstance(hl, list)]). *)
Inductive Trigger : Set :=
| Single (term : str)
| AllOf (terms : list str).


(** A highlight that cannot hold of lower-cased text: a term with an
    upper-case ASCII letter, single or in a list. *)
Definition has_upper (hl : Trigger) : Prop :=
  match hl with
  | Single h => ∃ x, x ∈ h ∧ 65 ≤ x ≤ 90
  | AllOf hs => Exists (λ h, ∃ x, x ∈ h ∧ 65 ≤ x ≤ 90) hs
  end.

(** The functions registered with [@command]. *)
Inductive Callback : Set :=
| ping_insights_cb.

(** The value of [requests.post]: the response of the server. *)
Record Response : Set := mkResponse {
  status_code : N;
  text : str
}.

(** A JSON object whose values are strings. *)
Definition json : Set := list (str * str).

(** A call of [logger.debug] or [logger.error], by its format and arguments. *)
Inductive LogRecord : Set :=
| DebugFound (hl : Trigger)
| DebugSawHighlight
| DebugResponse (body : str)
| DebugEvent (chan : str) (who : option str) (what : str)
| DebugSending (data : bytes)
| ErrorNotConnected (who chan : str)
| ErrorNoDestination (who : str).

(** The records that come from [logger.error]. *)
Definition is_error (r : LogRecord) : bool :=
  match r with
  | ErrorNotConnected _ _ | ErrorNoDestination _ => true
  | _ => false
  end.

(** The [IRCClient] object together with the module's mutable globals.
    [stream] is [None] until [connect] attaches one and then holds the
    chunks written to it, oldest first. *)
Record World : Type := mkWorld {
  stream : option (list bytes);
  reads : nat;
  channels : gset str;
  most_recent_highlight_channel : option str;
  most_recent_highlight_nick : option str;
  IRC_COMMAND_REGISTRY : list (str * Callback);
  callbacks : list (Callback * Event);
  posted : list (str * json);
  log : list LogRecord
}.

Definition set_stream (x : option (list bytes)) (w : World) : World :=
  mkWorld x (reads w) (channels w) (most_recent_highlight_channel w)
    (most_recent_highlight_nick w) (IRC_COMMAND_REGISTRY w) (callbacks w)
    (posted w) (log w).

Definition set_reads (x : nat) (w : World) : World :=
  mkWorld (stream w) x (channels w) (most_recent_highlight_channel w)
    (most_recent_highlight_nick w) (IRC_COMMAND_REGISTRY w) (callbacks w)
    (posted w) (log w).

Definition set_channels (x : gset str) (w : World) : World :=
  mkWorld (stream w) (reads w) x (most_recent_highlight_channel w)
    (most_recent_highlight_nick w) (IRC_COMMAND_REGISTRY w) (callbacks w)
    (posted w) (log w).

Definition set_most_recent_highlight_channel (x : option str) (w : World)
  : World :=
  mkWorld (stream w) (reads w) (channels w) x
    (most_recent_highlight_nick w) (IRC_COMMAND_REGISTRY w) (callbacks w)
    (posted w) (log w).

Definition set_most_recent_highlight_nick (x : option str) (w : World)
  : World :=
  mkWorld (stream w) (reads w) (channels w) (most_recent_highlight_channel w)
    x (IRC_COMMAND_REGISTRY w) (callbacks w) (posted w) (log w).

Definition set_callbacks (x : list (Callback * Event)) (w : World) : World :=
  mkWorld (stream w) (reads w) (channels w) (most_recent_highlight_channel w)
    (most_recent_highlight_nick w) (IRC_COMMAND_REGISTRY w) x (posted w)
    (log w).

Definition set_posted (x : list (str * json)) (w : World) : World :=
  mkWorld (stream w) (reads w) (channels w) (most_recent_highlight_channel w)
    (most_recent_highlight_nick w) (IRC_COMMAND_REGISTRY w) (callbacks w) x
    (log w).

Definition set_log (x : list LogRecord) (w : World) : World :=
  mkWorld (stream w) (reads w) (channels w) (most_recent_highlight_channel w)
    (most_recent_highlight_nick w) (IRC_COMMAND_REGISTRY w) (callbacks w)
    (posted w) x.

(** A computation on the state that returns or raises; what it changed
    before raising stays changed. *)
Definition M (A : Type) : Type := World -> result A * World.

Definition ret {A} (a : A) : M A := fun w => (Ok a, w).

Definition raise {A} (e : exn) : M A := fun w => (Raise e, w).

Definition bind {A B} (m : M A) (k : A -> M B) : M B :=
  fun w =>
    match m w with
    | (Ok a, w') => k a w'
    | (Raise e, w') => (Raise e, w')
    end.

Definition lift {A} (r : result A) : M A := fun w => (r, w).

Definition gets {A} (f : World -> A) : M A := fun w => (Ok (f w), w).

Definition modify (f : World -> World) : M unit := fun w => (Ok tt, f w).

Notation "'do' x <- m ; k" := (bind m (fun x => k))
  (at level 60, x name, m at next level, right associativity).

Definition logger (r : LogRecord) : M unit :=
  modify (fun w => set_log (log w ++ [r]) w).

(** [@command(name)]: [IRC_COMMAND_REGISTRY[name] = func], on the items of
    the registry in their order; a name already there keeps its place. *)
Definition command (name : str) (func : Callback)
    (reg : list (str * Callback)) : list (str * Callback) :=
  if existsb (fun kv => bool_decide (kv.1 = name)) reg
  then map (fun kv => if bool_decide (kv.1 = name) then (name, func) else kv) reg
  else reg ++ [(name, func)].

(** The state after [IRCClient.__init__]: no stream, no channel, no
    highlight seen, and the registry as the decorators of the module leave
    it. *)
Definition init : World :=
  mkWorld None 0 ∅ None None (command (u "ping") ping_insights_cb []) [] [] [].

(** ** Sample settings, for the examples *)

(** The client after [connect] attached a stream, before any join. *)
Definition attached : World := set_stream (Some []) init.

(** [str.lower] on ASCII text. *)
Definition ascii_lower (s : str) : str :=
  map (fun c => if (65 <=? c) && (c <=? 90) then c + 32 else c) s.

(** No character beyond ASCII counts as alphanumeric. *)
Definition ascii_only (c : char) : bool := false.

(** [{"all": ["urgent"], "dev": [["build", "failed"]]}] *)
Definition sample_highlights : gmap str (list Trigger) :=
  <[u "all" := [Single (u "urgent")]]>
    (<[u "dev" := [AllOf [u "build"; u "failed"]]]> ∅).

Definition sample_hook : str := u "https://hooks.example/services/T0".

(** A webhook that answers every post with 200 and the body ok. *)
Definition post_ok (url : str) (body : json) : result Response :=
  Ok (mkResponse 200 (u "ok")).

(** A webhook that cannot be reached. *)
Definition post_down (url : str) (body : json) : result Response :=
  Raise RequestException.

(** A webhook that answers every post with 500. *)
Definition post_500 (url : str) (body : json) : result Response :=
  Ok (mkResponse 500 (u "Internal Server Error")).

(** Rules with one highlight that is the empty string, and rules written
    in upper case. *)
Definition catch_all_highlights : gmap str (list Trigger) :=
  <[u "all" := [Single []]]> ∅.

Definition shouting_highlights : gmap str (list Trigger) :=
  <[u "all" := [Single (u "URGENT")]]> ∅.

(** The attached client with #ops joined. *)
Definition in_ops : World := set_channels {[u "#ops"]} attached.

(** ** The program, over the settings and the libraries it uses *)

Section Bot.

#[local] Set Default Proof Using "Type".

(** [str.isalnum] beyond ASCII (the Unicode tables behind the regular
    expression's \w), [str.lower], the settings of [settings.json] the code
    reads, and the webhook behind [requests.post]. *)
Variable unicode_isalnum : char -> bool.
Variable lower : str -> str.
Variable HIGHLIGHTS : gmap str (list Trigger).
Variable hook_url : str.
Variable requests_post : str -> json -> result Response.

(** *** [color_wrap] *)

Definition colors : list (str * str) :=
  [ (u "white", u "00"); (u "black", u "01"); (u "navy", u "02");
    (u "green", u "03"); (u "red", u "04"); (u "brown", u "05");
    (u "purple", u "06"); (u "orange", u "07"); (u "yellow", u "08");
    (u "lime", u "09"); (u "teal", u "10"); (u "cyan", u "11");
    (u "blue", u "12"); (u "pink", u "13"); (u "gray", u "14");
    (u "silver", u "15"); (u "reset", u "99") ].

(** [d.get(key)] on a dict given by its items *)
Fixpoint dict_get {V} (d : list (str * V)) (key : str) : option V :=
  match d with
  | [] => None
  | (k, v) :: tl => if bool_decide (k = key) then Some v else dict_get tl key
  end.

(** [_wrap], on the group the match captured *)
Definition _wrap (word : str) : str :=
  match dict_get colors word with
  | Some ((_ :: _) as color) => 3 :: color
  | _ => word
  end.

(** A character \w matches: alphanumeric, or the underscore. *)
Definition is_word (c : char) : bool :=
  (c =? 95)
  || (if c <? 128
      then ((48 <=? c) && (c <=? 57)) || ((65 <=? c) && (c <=? 90))
           || ((97 <=? c) && (c <=? 122))
      else unicode_isalnum c).

(** The longest run of word characters [s] starts with, and what follows. *)
Fixpoint span_word (s : str) : str * str :=
  match s with
  | [] => ([], [])
  | c :: tl =>
    if is_word c then let (w, r) := span_word tl in (c :: w, r)
    else ([], s)
  end.

(** A match of the pattern [\${(\w+)}] at the start of [s]: the group and
    the text after the match. The run of word characters is taken whole:
    the closing brace is no word character, so no shorter run matches. *)
Definition match_at (s : str) : option (str * str) :=
  if startswith (u "${") s then
    let (w, r) := span_word (drop 2 s) in
    match w, r with
    | _ :: _, c :: rest => if c =? 125 then Some (w, rest) else None
    | _, _ => None
    end
  else None.

(** [re.sub(pattern, _wrap, s)]: matches taken left to right, none
    overlapping; [fuel] bounds the characters still to scan. *)
Fixpoint sub_from (fuel : nat) (s : str) : str :=
  match fuel, s with
  | S fuel', c :: tl =>
    match match_at s with
    | Some (word, rest) => _wrap word ++ sub_from fuel' rest
    | None => c :: sub_from fuel' tl
    end
  | _, _ => []
  end.

Definition color_wrap (msg : str) : str := sub_from (length msg) msg.

(** The placeholder for a name, as it stands in a text. *)
Definition placeholder (name : str) : str := u "${" ++ name ++ u "}".

(** A name the pattern's group can capture: one word character or more. *)
Definition is_name (name : str) : Prop :=
  name ≠ [] ∧ Forall (λ c, is_word c = true) name.

(** A text in which no placeholder with such a name occurs. *)
Definition no_placeholder (s : str) : Prop :=
  ∀ pre name post, s = pre ++ placeholder name ++ post → ¬ is_name name.

(** *** Highlights *)

(** [HIGHLIGHTS.get(key, [])] *)
Definition highlights_get (key : str) : list Trigger :=
  default [] (HIGHLIGHTS !! key).

(** The list the generator [get_highlights_for] yields; its body runs
    [channel.strip("#")] first, which an unset channel does not have. *)
Definition get_highlights_for (channel : option str) : result (list Trigger) :=
  match channel with
  | None => Raise AttributeError
  | Some c =>
    let c' := strip (one_of (u "#")) c in
    Ok (highlights_get (u "all") ++ highlights_get c')
  end.

(** The test of one highlight in the loop of [contains_highlight]. *)
Definition trigger_matches (msg : str) (hl : Trigger) : bool :=
  match hl with
  | AllOf hs => forallb (fun h => contains h msg) hs
  | Single h => contains h msg
  end.

(** The loop of [contains_highlight]: returns at the first match. *)
Fixpoint scan_highlights (msg : str) (hls : list Trigger) : M bool :=
  match hls with
  | [] => ret false
  | hl :: tl =>
    if trigger_matches msg hl
    then do _ <- logger (DebugFound hl); ret true
    else scan_highlights msg tl
  end.

Definition contains_highlight (event : Event) : M bool :=
  let msg := lower (msg event) in
  if negb (bool_decide (code event = u "PRIVMSG")) then ret false
  else
    do hls <- lift (get_highlights_for (channel event));
    scan_highlights msg hls.

(** The predicate in the words of the specification, which knows no event
    without a channel: the code is PRIVMSG and some highlight among those
    of "all", followed by those of the event's channel when it has one,
    holds of the lower-cased message. *)
Definition spec_contains_highlight (event : Event) : bool :=
  bool_decide (code event = u "PRIVMSG")
  && existsb (trigger_matches (lower (msg event)))
       (highlights_get (u "all")
        ++ match channel event with
           | Some c => highlights_get (strip (one_of (u "#")) c)
           | None => []
           end).

(** An optional field inside an f-string. *)
Definition fmt (o : option str) : str :=
  match o with
  | Some s => s
  | None => u "None"
  end.

(** [requests.post(url, json=body)]: the call is recorded, its outcome is
    the webhook's. *)
Definition post (url : str) (body : json) : M Response :=
  do _ <- modify (fun w => set_posted (posted w ++ [(url, body)]) w);
  lift (requests_post url body).

(** A post that succeeded, in the words of the specification: a response
    came back and its status is one of the 2xx. The source has no such
    test. *)
Definition spec_post_succeeded (r : result Response) : bool :=
  match r with
  | Ok response =>
    (200 <=? status_code response) && (status_code response <? 300)
  | Raise _ => false
  end.

(** The JSON object [ping_insights] posts for an event, by name. *)
Definition highlight_body (event : Event) : json :=
  [(u "text",
    u "(" ++ fmt (channel event) ++ u ") " ++ fmt (nick event)
      ++ u " says: " ++ msg event)].

Definition ping_insights (event : Event) : M unit :=
  do hit <- contains_highlight event;
  if hit then
    do _ <- logger DebugSawHighlight;
    do response <- post hook_url
      [(u "text",
        u "(" ++ fmt (channel event) ++ u ") " ++ fmt (nick event)
          ++ u " says: " ++ msg event)];
    do _ <- logger (DebugResponse (text response));
    do _ <- modify (set_most_recent_highlight_channel (channel event));
    modify (set_most_recent_highlight_nick (nick event))
  else ret tt.

(** *** [IRCClient] *)

Definition CRLF : bytes := [x0d; x0a].

(** [self.stream.write(data)] *)
Definition stream_write (data : bytes) : M unit :=
  fun w =>
    match stream w with
    | None => (Raise AttributeError, w)
    | Some written => (Ok tt, set_stream (Some (written ++ [data])) w)
    end.

(** [send_message], called with a [str] everywhere in the source. *)
Definition send_message (line : str) : M unit :=
  do data <- lift (encode line);
  do _ <- logger (DebugSending data);
  stream_write (data ++ CRLF).

Definition join (channel : str) : M unit :=
  do _ <- modify (fun w => set_channels ({[ u "#" ++ channel ]} ∪ channels w) w);
  send_message (u "JOIN #" ++ channel).

(** [self.stream.read_until(b'\n', self._read_message)] *)
Definition wait_for_input : M unit :=
  fun w =>
    match stream w with
    | None => (Raise AttributeError, w)
    | Some _ => (Ok tt, set_reads (S (reads w)) w)
    end.

(** [self.io_loop.spawn_callback(v, self, event)] for each item of the
    registry, in its order. *)
Fixpoint spawn_all (items : list (str * Callback)) (event : Event) : M unit :=
  match items with
  | [] => ret tt
  | (_, v) :: tl =>
    do _ <- modify (fun w => set_callbacks (callbacks w ++ [(v, event)]) w);
    spawn_all tl event
  end.

Definition dispatch (event : Event) : M unit :=
  do items <- gets IRC_COMMAND_REGISTRY;
  spawn_all items event.

Definition handle_event (event : Event) : M unit :=
  do _ <- (if bool_decide (code event = u "PING")
           then do arg0 <- lift (item (args event) 0);
                send_message (u "PONG " ++ arg0)
           else dispatch event);
  wait_for_input.

(** A value of an [if]: [None] and the empty string are false. *)
Definition truthy (o : option str) : bool :=
  match o with
  | Some (_ :: _) => true
  | _ => false
  end.

Definition _read_message (raw : bytes) : M unit :=
  do event <- lift (parse raw);
  do _ <- (if truthy (channel event) && contains (u "MSG") (code event)
           then logger (DebugEvent (fmt (channel event)) (nick event)
                          (msg event))
           else ret tt);
  handle_event event.

Definition send_to_channel (channel line : str) : M unit :=
  send_message (u "PRIVMSG " ++ channel ++ u " :" ++ color_wrap line).

(** The destination [send_from_slack] settles on: [None] stands for its
    [return] in the last branch. *)
Definition slack_target (user msg : str) : M (option (str * str)) :=
  if contains (u ":") msg then
    match split1 (u ":") msg with
    | [channel; msg'] =>
      let channel := u "#" ++ strip (one_of (u "#")) channel in
      let msg' := strip isspace msg' in
      do joined <- gets channels;
      do _ <- (if bool_decide (channel ∈ joined) then ret tt
               else logger (ErrorNotConnected user channel));
      ret (Some (channel, msg'))
    | _ => raise ValueError
    end
  else
    do recent <- gets most_recent_highlight_channel;
    if truthy recent then ret (Some (fmt recent, msg))
    else
      do _ <- logger (ErrorNoDestination user);
      ret None.

Definition send_from_slack (user msg : str) : M unit :=
  do target <- slack_target user msg;
  match target with
  | None => ret tt
  | Some (channel, msg') =>
    send_to_channel channel
      (u "[slack] @" ++ user ++ u " said '" ++ msg' ++ u "'")
  end.

(** The callback queue's entry, run: the function behind a [Callback]. *)
Definition run_callback (cb : Callback) (event : Event) : M unit :=
  match cb with
  | ping_insights_cb => ping_insights event
  end.

(** *** [broadcast], [connect], [close] *)

(** The order in which [for channel in self.channels] visits the set, the
    entries [irc_settings["nick"]] and [irc_settings["channels"]], and
    whether [socket.socket] and [sock.connect] return or raise OSError. *)
Variable set_iter : gset str -> list str.
Variable irc_nick : str.
Variable irc_channels : list str.
Variable socket_connects : bool.

(** A [for] loop over a list: the body for each element in turn, stopping
    at the first exception. *)
Fixpoint for_each {A} (xs : list A) (body : A -> M unit) : M unit :=
  match xs with
  | [] => ret tt
  | x :: tl => do _ <- body x; for_each tl body
  end.

Definition broadcast (msg : str) : M unit :=
  do joined <- gets channels;
  for_each (set_iter joined) (fun channel => send_to_channel channel msg).

(** The client together with what [stream.close()] did: [stream_closed]
    holds when the stream the client holds has been closed. *)
Record Conn : Type := mkConn {
  client : World;
  stream_closed : bool
}.

(** How a method of the connection ends: it returns, raises one of the
    exceptions above, or raises the OSError of the socket. *)
Inductive ended : Set :=
| Returned
| Raised (e : exn)
| RaisedOSError.

(** [close]: [self.stream.close()] *)
Definition close (c : Conn) : ended * Conn :=
  match stream (client c) with
  | None => (Raised AttributeError, c)
  | Some _ => (Returned, mkConn (client c) true)
  end.

(** The lines 127-131 of [connect], on the stream just attached. *)
Definition register : M unit :=
  do _ <- send_message (u "NICK " ++ irc_nick);
  do _ <- send_message (u "USER " ++ irc_nick ++ u " 0 * :" ++ irc_nick);
  do _ <- for_each irc_channels join;
  wait_for_input.

Definition connect (c : Conn) : ended * Conn :=
  let c1 :=
    match stream (client c) with
    | Some _ => mkConn (client c) true
    | None => c
    end in
  if socket_connects then
    match register (set_stream (Some []) (client c1)) with
    | (Ok _, w) => (Returned, mkConn w false)
    | (Raise e, w) => (Raised e, mkConn w false)
    end
  else (RaisedOSError, c1).

(** The state [w'] differs from [w] in the log and the stream at most. *)
Definition only_log_and_stream (w w' : World) : Prop :=
  reads w' = reads w
  ∧ channels w' = channels w
  ∧ most_recent_highlight_channel w' = most_recent_highlight_channel w
  ∧ most_recent_highlight_nick w' = most_recent_highlight_nick w
  ∧ IRC_COMMAND_REGISTRY w' = IRC_COMMAND_REGISTRY w
  ∧ callbacks w' = callbacks w
  ∧ posted w' = posted w.


(** ** Facts about the text operations *)

#[local] Arguments N.eqb : simpl never.
#[local] Arguments N.leb : simpl never.
#[local] Arguments N.ltb : simpl never.

Lemma startswith_app (pre r : str) : startswith pre (pre ++ r) = true.
Proof.
  induction pre as [|c pre IH]; simpl; [done|].
  by rewrite N.eqb_refl.
Qed.

Lemma startswith_inv (pre s : str) :
  startswith pre s = true → s = pre ++ drop (length pre) s.
Proof.
  revert s. induction pre as [|c pre IH]; intros [|x s] H; simpl in *; try done.
  apply andb_true_iff in H as [Hc H]. apply N.eqb_eq in Hc as ->.
  f_equal. by apply IH.
Qed.

Lemma index_of_nil (sub : str) :
  index_of sub [] = if startswith sub [] then Some 0%nat else None.
Proof. done. Qed.

Lemma index_of_cons (sub : str) (c : char) (s : str) :
  index_of sub (c :: s) =
  if startswith sub (c :: s) then Some 0%nat else S <$> index_of sub s.
Proof. done. Qed.

(** [index_of] finds an occurrence: the text splits around it. *)
Lemma index_of_Some (sub s : str) (i : nat) :
  index_of sub s = Some i →
  s = take i s ++ sub ++ drop (i + length sub) s.
Proof.
  revert i. induction s as [|c s IH]; intros i.
  - rewrite index_of_nil. destruct (startswith sub []) eqn:E; [|done].
    intros ?; simplify_eq. simpl. by apply startswith_inv.
  - rewrite index_of_cons. destruct (startswith sub (c :: s)) eqn:E.
    + intros ?; simplify_eq. simpl. by apply startswith_inv.
    + destruct (index_of sub s) as [k|] eqn:Ek; [|done].
      intros H; simpl in H; simplify_eq. simpl. f_equal. by apply IH.
Qed.

Lemma index_of_lt (sub s : str) (i : nat) :
  index_of sub s = Some i → (i + length sub ≤ length s)%nat.
Proof.
  revert i. induction s as [|c s IH]; intros i.
  - rewrite index_of_nil. destruct (startswith sub []) eqn:E; [|done].
    intros ?; simplify_eq. by destruct sub.
  - rewrite index_of_cons. destruct (startswith sub (c :: s)) eqn:E.
    + intros ?; simplify_eq. apply startswith_inv in E.
      apply (f_equal length) in E. rewrite length_app in E. lia.
    + destruct (index_of sub s) as [k|] eqn:Ek; [|done].
      intros H; simpl in H; simplify_eq. specialize (IH k eq_refl).
      simpl. lia.
Qed.

Lemma index_of_here (sub s : str) :
  startswith sub s = true → index_of sub s = Some 0%nat.
Proof.
  intros H. destruct s; [rewrite index_of_nil|rewrite index_of_cons];
    by rewrite H.
Qed.

(** An occurrence anywhere is found. *)
Lemma index_of_occurs (sub pre post : str) :
  is_Some (index_of sub (pre ++ sub ++ post)).
Proof.
  induction pre as [|c pre IH].
  - exists 0%nat. apply index_of_here, (startswith_app sub post).
  - change ((c :: pre) ++ sub ++ post) with (c :: pre ++ sub ++ post).
    rewrite index_of_cons.
    destruct (startswith sub (c :: pre ++ sub ++ post)); [by eexists|].
    destruct IH as [k ->]. by eexists.
Qed.

(** [sub in s] holds exactly when [sub] is a substring of [s]. *)
Lemma contains_substring (sub s : str) :
  contains sub s = true ↔ substring sub s.
Proof.
  unfold contains, substring. split.
  - destruct (index_of sub s) as [i|] eqn:E; [|done]. intros _.
    apply index_of_Some in E. eauto.
  - intros (pre & post & ->).
    by destruct (index_of_occurs sub pre post) as [k ->].
Qed.

Lemma contains_char (c : char) (s : str) :
  contains [c] s = true ↔ c ∈ s.
Proof.
  rewrite contains_substring. unfold substring. split.
  - intros (pre & post & ->). rewrite !elem_of_app, elem_of_cons. auto.
  - intros (pre & post & ->)%list_elem_of_split. by exists pre, post.
Qed.

Lemma contains_char_false (c : char) (s : str) :
  contains [c] s = false ↔ c ∉ s.
Proof.
  rewrite <- contains_char. by destruct (contains [c] s).
Qed.

(** The first occurrence of a character: nothing before it is that
    character. *)
Lemma index_of_char (c : char) (s : str) (i : nat) :
  index_of [c] s = Some i → s !! i = Some c ∧ c ∉ take i s.
Proof.
  revert i. induction s as [|x s IH]; intros i.
  - by rewrite index_of_nil.
  - rewrite index_of_cons. simpl. rewrite andb_true_r.
    destruct (c =? x) eqn:E.
    + intros [= <-]. apply N.eqb_eq in E as ->. split; [done|]. simpl.
      apply not_elem_of_nil.
    + destruct (index_of [c] s) as [k|] eqn:Ek; [|done]. intros [= <-].
      apply N.eqb_neq in E. destruct (IH k eq_refl) as [H1 H2].
      split; [done|]. simpl. by apply not_elem_of_cons.
Qed.

(** *** [split_on] and [join] *)

Lemma split_on_cons (c x : char) (s : str) :
  split_on c (x :: s) =
  if x =? c then [] :: split_on c s
  else match split_on c s with
       | w :: ws => (x :: w) :: ws
       | [] => [[x]]
       end.
Proof. done. Qed.

Lemma split_on_not_nil (c : char) (s : str) : split_on c s ≠ [].
Proof.
  induction s as [|x s IH]; [done|]. rewrite split_on_cons.
  destruct (x =? c); [done|]. by destruct (split_on c s).
Qed.

Lemma split_on_absent (c : char) (s : str) : c ∉ s → split_on c s = [s].
Proof.
  induction s as [|x s IH]; [done|]. intros H.
  rewrite split_on_cons.
  apply not_elem_of_cons in H as [Hne H].
  destruct (x =? c) eqn:E; [by apply N.eqb_eq in E|].
  by rewrite IH.
Qed.

Lemma split_on_single (c : char) (s w : str) :
  split_on c s = [w] → c ∉ s.
Proof.
  revert w. induction s as [|x s IH]; intros w;
    [intros _; apply not_elem_of_nil|].
  rewrite split_on_cons. destruct (x =? c) eqn:E.
  - intros [= _ H]. by destruct (split_on_not_nil c s).
  - apply N.eqb_neq in E. destruct (split_on c s) as [|w' ws] eqn:Es;
      [by destruct (split_on_not_nil c s)|].
    intros [= _ ->]. specialize (IH w' eq_refl).
    by apply not_elem_of_cons.
Qed.

Lemma split_on_app (c : char) (s1 s2 : str) :
  split_on c (s1 ++ c :: s2) = split_on c s1 ++ split_on c s2.
Proof.
  induction s1 as [|x s1 IH]; simpl app.
  - by rewrite split_on_cons, N.eqb_refl.
  - rewrite !split_on_cons. destruct (x =? c); [by rewrite IH|].
    rewrite IH. destruct (split_on c s1) eqn:E; [|done].
    by destruct (split_on_not_nil c s1).
Qed.

Lemma str_join_cons (sep x : str) (tl : list str) :
  tl ≠ [] → str_join sep (x :: tl) = x ++ sep ++ str_join sep tl.
Proof. by destruct tl. Qed.

Lemma str_join_app (sep : str) (l1 l2 : list str) :
  l1 ≠ [] → l2 ≠ [] →
  str_join sep (l1 ++ l2) = str_join sep l1 ++ sep ++ str_join sep l2.
Proof.
  intros H1 H2. induction l1 as [|x l1 IH]; [done|].
  destruct l1 as [|y l1].
  - simpl app. by rewrite str_join_cons.
  - change ((x :: y :: l1) ++ l2) with (x :: (y :: l1) ++ l2).
    rewrite (str_join_cons sep x ((y :: l1) ++ l2)) by done.
    rewrite IH by done. rewrite (str_join_cons sep x (y :: l1)) by done.
    by rewrite <- !app_assoc.
Qed.

(** Splitting at a character and joining with it gives the text back. *)
Lemma str_join_split_on (c : char) (s : str) : str_join [c] (split_on c s) = s.
Proof.
  induction s as [|x s IH]; [done|]. rewrite split_on_cons.
  destruct (x =? c) eqn:E.
  - apply N.eqb_eq in E as ->.
    rewrite str_join_cons by apply split_on_not_nil. by rewrite IH.
  - destruct (split_on c s) as [|w ws] eqn:Es;
      [by destruct (split_on_not_nil c s)|].
    destruct ws as [|w' ws]; simpl in *; by rewrite <- IH.
Qed.

(** *** Indexing and slicing *)

Lemma item_0 {A} (s : list A) :
  item s 0 = match s with [] => Raise IndexError | x :: _ => Ok x end.
Proof. by destruct s. Qed.

Lemma item_1 {A} (x y : A) (s : list A) : item (x :: y :: s) 1 = Ok y.
Proof. done. Qed.

Lemma item_last {A} (s : list A) :
  item s (-1) = match last s with Some x => Ok x | None => Raise IndexError end.
Proof.
  unfold item. rewrite last_lookup. destruct s as [|x s]; [done|].
  replace (Z.of_nat (length (x :: s)) + -1)%Z with (Z.of_nat (length s))
    by (simpl length; lia).
  change (-1 <? 0)%Z with true. cbv iota.
  destruct (Z.ltb_spec (Z.of_nat (length s)) 0); [lia|].
  rewrite Nat2Z.id. simpl pred. by destruct (_ !! _).
Qed.

Lemma slice_from {A} (s : list A) (k : Z) :
  (0 ≤ k)%Z → slice s (Some k) None = drop (Z.to_nat k) s.
Proof.
  intros Hk. unfold slice, slice_bound.
  destruct (Z.ltb_spec k 0); [lia|].
  destruct (Z.min_spec k (Z.of_nat (length s))) as [[? ->]|[? ->]].
  - apply take_ge. rewrite length_drop. lia.
  - rewrite Nat2Z.id, Nat.sub_diag, drop_all. simpl.
    symmetry. apply drop_ge. lia.
Qed.

Lemma slice_to {A} (s : list A) (k : Z) :
  (0 ≤ k)%Z → slice s None (Some k) = take (Z.to_nat k) s.
Proof.
  intros Hk. unfold slice, slice_bound.
  destruct (Z.ltb_spec k 0); [lia|]. rewrite Nat.sub_0_r, drop_0.
  destruct (Z.min_spec k (Z.of_nat (length s))) as [[? ->]|[? ->]]; [done|].
  rewrite Nat2Z.id. by rewrite !take_ge by lia.
Qed.

Lemma slice_between {A} (s : list A) (lo hi : Z) :
  (0 ≤ lo)%Z → (0 ≤ hi)%Z →
  slice s (Some lo) (Some hi)
  = take (Z.to_nat hi - Z.to_nat lo) (drop (Z.to_nat lo) s).
Proof.
  intros Hlo Hhi. unfold slice, slice_bound.
  destruct (Z.ltb_spec lo 0); [lia|]. destruct (Z.ltb_spec hi 0); [lia|].
  destruct (Z.min_spec lo (Z.of_nat (length s))) as [[? ->]|[? ->]].
  - destruct (Z.min_spec hi (Z.of_nat (length s))) as [[? ->]|[? ->]]; [done|].
    rewrite Nat2Z.id. rewrite !take_ge; [done| |]; rewrite length_drop; lia.
  - rewrite Nat2Z.id, drop_all, (drop_ge s) by lia. by rewrite !take_nil.
Qed.

(** *** The command and its parameters *)

Lemma parse_params_marker (msg : str) (i : nat) :
  index_of (u " :") msg = Some i →
  ∃ code args,
    split_on 32 (take i msg) = code :: args ∧
    parse_params msg = Ok (code, args ++ [drop (i + 2) msg]).
Proof.
  intros Hi. unfold parse_params, split1. rewrite Hi.
  destruct (split_on 32 (take i msg)) as [|code args] eqn:E;
    [by destruct (split_on_not_nil 32 (take i msg))|].
  exists code, args. split; [done|].
  rewrite item_0. cbn [rbind]. rewrite E. by rewrite item_1.
Qed.

Lemma parse_params_plain (msg : str) :
  index_of (u " :") msg = None →
  ∃ code args,
    split_on 32 msg = code :: args ∧ parse_params msg = Ok (code, args).
Proof.
  intros Hi. unfold parse_params, split1. rewrite Hi.
  destruct (split_on 32 msg) as [|code args] eqn:E;
    [by destruct (split_on_not_nil 32 msg)|].
  exists code, args. split; [done|].
  rewrite item_0. cbn [rbind]. by rewrite E.
Qed.

(** A remainder with a space has a parameter. *)
Lemma parse_params_some (msg : str) :
  contains (u " ") msg = true →
  ∃ code args, parse_params msg = Ok (code, args) ∧ args ≠ [].
Proof.
  intros Hsp. destruct (index_of (u " :") msg) as [i|] eqn:Hi.
  - destruct (parse_params_marker msg i Hi) as (code & args & _ & ->).
    exists code, (args ++ [drop (i + 2) msg]). split; [done|].
    by destruct args.
  - destruct (parse_params_plain msg Hi) as (code & args & Hs & ->).
    exists code, args. split; [done|]. intros ->.
    apply split_on_single in Hs. by apply contains_char in Hsp.
Qed.

(** A remainder without a space is a command alone. *)
Lemma parse_params_none (msg : str) :
  contains (u " ") msg = false → parse_params msg = Ok (msg, []).
Proof.
  intros Hsp. apply contains_char_false in Hsp.
  destruct (index_of (u " :") msg) as [i|] eqn:Hi.
  - apply index_of_Some in Hi. change (u " :") with [32; 58] in Hi.
    destruct Hsp. rewrite Hi. rewrite !elem_of_app, elem_of_cons. auto.
  - destruct (parse_params_plain msg Hi) as (code & args & Hs & ->).
    rewrite split_on_absent in Hs by done. by simplify_eq.
Qed.

(** *** The parser as a whole *)

(** What a successful parse went through: the line decoded, its prefix
    split off, the remainder split into command and parameters. *)
Lemma parse_Ok_inv (raw0 : bytes) (e : Event) :
  parse raw0 = Ok e →
  ∃ rem first,
    raw e = rstrip is_crlf raw0 ∧
    utf8_decode (raw e) = Some (line e) ∧
    parse_prefix (line e) = Ok (source e, nick e, user e, host e, rem) ∧
    parse_params rem = Ok (code e, args e) ∧
    last (args e) = Some (msg e) ∧
    head (args e) = Some first ∧
    channel e = if contains (u "#") first then Some first else None.
Proof.
  unfold parse, decode.
  destruct (utf8_decode (rstrip is_crlf raw0)) as [ln|] eqn:Hd; [|done].
  cbn [rbind].
  destruct (parse_prefix ln) as [[[[[so n] us] h] rem]|] eqn:Hp; [|done].
  cbn [rbind].
  destruct (parse_params rem) as [[cd ar]|] eqn:Hq; [|done]. cbn [rbind].
  rewrite item_last, item_0.
  destruct (last ar) as [lst|] eqn:Hl; [|done]. cbn [rbind].
  destruct ar as [|fst ar']; [done|]. cbn [rbind].
  intros [= <-]. by exists rem, fst.
Qed.

(** A decoded line whose prefix splits off parses when its remainder has a
    space, and fails on [args[-1]] otherwise. *)
Lemma parse_after_prefix (raw0 : bytes) (ln : str)
    (so n us h : option str) (rem : str) :
  utf8_decode (rstrip is_crlf raw0) = Some ln →
  parse_prefix ln = Ok (so, n, us, h, rem) →
  if contains (u " ") rem
  then ∃ e, parse raw0 = Ok e ∧ line e = ln ∧ source e = so ∧ nick e = n ∧
            user e = us ∧ host e = h ∧ args e ≠ [] ∧
            last (args e) = Some (msg e)
  else parse raw0 = Raise IndexError.
Proof.
  intros Hd Hp. unfold parse, decode. rewrite Hd. cbn [rbind]. rewrite Hp.
  cbn [rbind]. destruct (contains (u " ") rem) eqn:Hsp.
  - destruct (parse_params_some rem Hsp) as (cd & ar & -> & Hne).
    cbn [rbind]. rewrite item_last, item_0.
    destruct (last ar) as [lst|] eqn:Hl;
      [|by apply last_None in Hl].
    destruct ar as [|fst ar']; [done|]. cbn [rbind].
    eexists. split; [done|]. by cbn.
  - by rewrite (parse_params_none rem Hsp).
Qed.

Lemma parse_prefix_plain (c : char) (tl : str) :
  (c =? 58) = false →
  parse_prefix (c :: tl) = Ok (None, None, None, None, c :: tl).
Proof. intros H. unfold parse_prefix. rewrite item_0. cbn [rbind]. by rewrite H. Qed.

Lemma parse_prefix_no_space (tl : str) :
  index_of (u " ") (58 :: tl) = None →
  parse_prefix (58 :: tl) = Raise ValueError.
Proof.
  intros H. unfold parse_prefix, index. rewrite item_0. cbn [rbind].
  by rewrite N.eqb_refl, H.
Qed.

Lemma parse_prefix_colon (tl : str) (pos : nat) :
  index_of (u " ") (58 :: tl) = Some pos →
  ∃ n us h,
    parse_prefix (58 :: tl)
    = Ok (Some (take (pos - 1) tl), n, us, h, drop (S pos) (58 :: tl)).
Proof.
  intros H. unfold parse_prefix, index. rewrite item_0. cbn [rbind].
  rewrite N.eqb_refl, H. cbn [rbind].
  rewrite (slice_between (58 :: tl) 1 (Z.of_nat pos)) by lia.
  rewrite (slice_from (58 :: tl)) by lia.
  replace (Z.to_nat (Z.of_nat pos + 1)) with (S pos) by lia.
  rewrite Nat2Z.id. change (Z.to_nat 1) with 1%nat.
  change (drop 1 (58 :: tl)) with tl.
  destruct (_ && _); eauto.
Qed.

(** C2, as the code has it: the parser is partial. It returns an Event
    exactly when the bytes, stripped of trailing CR and LF, decode as UTF-8
    to a non-empty line whose remainder (the line itself, or what follows
    the first space of a line that starts with a colon) contains a space.
    It raises UnicodeDecodeError on bytes that do not decode, IndexError on
    the empty line, ValueError on a colon prefix with no space after it, and
    IndexError when no parameter follows the command. An Event it returns
    has at least one argument, [msg] is the last one, and [source], [nick],
    [user] and [host] are unset when the line has no prefix. *)
Theorem parse_partial (raw0 : bytes) :
  match utf8_decode (rstrip is_crlf raw0) with
  | None => parse raw0 = Raise UnicodeDecodeError
  | Some [] => parse raw0 = Raise IndexError
  | Some (c :: tl) =>
    if c =? 58 then
      match index_of (u " ") (c :: tl) with
      | None => parse raw0 = Raise ValueError
      | Some pos =>
        if contains (u " ") (drop (S pos) (c :: tl))
        then ∃ e, parse raw0 = Ok e ∧ line e = c :: tl ∧
                  source e = Some (take (pos - 1) tl) ∧
                  args e ≠ [] ∧ last (args e) = Some (msg e)
        else parse raw0 = Raise IndexError
      end
    else
      if contains (u " ") (c :: tl)
      then ∃ e, parse raw0 = Ok e ∧ line e = c :: tl ∧
                source e = None ∧ nick e = None ∧ user e = None ∧
                host e = None ∧
                args e ≠ [] ∧ last (args e) = Some (msg e)
      else parse raw0 = Raise IndexError
  end.
Proof.
  destruct (utf8_decode (rstrip is_crlf raw0)) as [[|c tl]|] eqn:Hd.
  - unfold parse, decode. by rewrite Hd.
  - destruct (c =? 58) eqn:Hc.
    + apply N.eqb_eq in Hc as ->.
      destruct (index_of (u " ") (58 :: tl)) as [pos|] eqn:Hpos.
      * destruct (parse_prefix_colon tl pos Hpos) as (n & us & h & Hp).
        pose proof (parse_after_prefix raw0 _ _ _ _ _ _ Hd Hp) as H.
        destruct (contains (u " ") (drop (S pos) (58 :: tl))); [|done].
        destruct H as (e & ? & ? & ? & ? & ? & ? & ? & ?). by exists e.
      * unfold parse, decode. rewrite Hd. cbn [rbind].
        by rewrite (parse_prefix_no_space tl Hpos).
    + pose proof (parse_after_prefix raw0 _ _ _ _ _ _ Hd
                    (parse_prefix_plain c tl Hc)) as H.
      destruct (contains (u " ") (c :: tl)); [|done].
      destruct H as (e & ? & ? & ? & ? & ? & ? & ? & ?). by exists e.
  - unfold parse, decode. by rewrite Hd.
Qed.

(** The keep-alive line of the examples falls in the last case: no prefix,
    a space in the line. *)
Lemma parse_partial_witness :
  ∃ e, parse (b "PING :server.example" ++ [x0d; x0a]) = Ok e
       ∧ line e = u "PING :server.example"
       ∧ source e = None ∧ nick e = None ∧ user e = None ∧ host e = None
       ∧ args e ≠ [] ∧ last (args e) = Some (msg e).
Proof. exact (parse_partial (b "PING :server.example" ++ [x0d; x0a])). Defined.

(** C2, as stated, fails: lines the socket can deliver make the parser
    raise. An empty line, a prefix with no space after it and a command
    with no parameter each end in an exception, not in an Event. *)
Lemma parse_total_counterexample :
  parse [x0d; x0a] = Raise IndexError
  ∧ parse (b ":irc.example.net" ++ [x0d; x0a]) = Raise ValueError
  ∧ parse (b "PING" ++ [x0d; x0a]) = Raise IndexError
  ∧ ¬ (∀ raw0, ∃ e, parse raw0 = Ok e).
Proof.
  repeat split; try by vm_compute.
  intros H. by destruct (H [x0d; x0a]) as [e He].
Qed.

Example parse_hello :
  parse (b ":nick!user@host PRIVMSG #chan :hello world" ++ [x0d; x0a])
  = Ok hello_event.
Proof. by vm_compute. Qed.

Example parse_ping :
  parse (b "PING :server.example" ++ [x0d; x0a]) = Ok ping_event.
Proof. by vm_compute. Qed.

(** A remainder that starts with a space has the empty command. *)
Example parse_empty_code :
  ∃ e, parse (b " :hello" ++ [x0d; x0a]) = Ok e
       ∧ code e = [] ∧ args e = [u "hello"] ∧ source e = None.
Proof. eexists. repeat split; by vm_compute. Qed.

(** C3, as the code has it: for a parsed line with a prefix, [nick], [user]
    and [host] are set exactly when the first "!" and the first "@" of
    [source] both stand at an index greater than 0, whatever their order;
    they are then [source[:i]], [source[i+1:j]] and [source[j+1:]].
    Otherwise all three are unset together. *)
Theorem prefix_fields (raw0 : bytes) (e : Event) (s : str)
    (He : parse raw0 = Ok e) (Hs : source e = Some s) :
  let i := find (u "!") s in
  let j := find (u "@") s in
  if (0 <? i)%Z && (0 <? j)%Z
  then nick e = Some (slice s None (Some i))
       ∧ user e = Some (slice s (Some (i + 1)%Z) (Some j))
       ∧ host e = Some (slice s (Some (j + 1)%Z) None)
  else nick e = None ∧ user e = None ∧ host e = None.
Proof.
  destruct (parse_Ok_inv raw0 e He) as (rem & fst & _ & _ & Hp & _).
  rewrite Hs in Hp. revert Hp. unfold parse_prefix.
  destruct (item (line e) 0) as [c0|]; [|done]. cbn [rbind].
  destruct (c0 =? 58); [|done].
  destruct (index (u " ") (line e)) as [pos|]; [|done]. cbn [rbind].
  set (s' := slice (line e) (Some 1%Z) (Some pos)).
  destruct ((0 <? find (u "!") s')%Z && (0 <? find (u "@") s')%Z) eqn:Hij;
    intros [= <- <- <- <- _]; cbv zeta; by rewrite Hij.
Qed.

(** The three fields of the well-formed prefix nick!user@host. *)
Lemma prefix_fields_witness :
  nick hello_event = Some (u "nick")
  ∧ user hello_event = Some (u "user")
  ∧ host hello_event = Some (u "host").
Proof.
  exact (prefix_fields _ hello_event (u "nick!user@host") parse_hello eq_refl).
Defined.

(** C3, as stated, fails: with "@" before "!" in the prefix the three
    fields are set all the same, to pieces cut at the wrong places. *)
Lemma prefix_order_counterexample :
  ∃ e, parse (b ":a@b!c PRIVMSG #chan :hi" ++ [x0d; x0a]) = Ok e
       ∧ source e = Some (u "a@b!c")
       ∧ (find (u "@") (u "a@b!c") < find (u "!") (u "a@b!c"))%Z
       ∧ nick e = Some (u "a@b")
       ∧ user e = Some (u "")
       ∧ host e = Some (u "b!c").
Proof. eexists. repeat split; by vm_compute. Qed.

(** *** Re-joining an Event *)

Lemma index_of_split_length (sub s : str) (i : nat) :
  index_of sub s = Some i → length (take i s) = i.
Proof. intros H%index_of_lt. rewrite length_take. lia. Qed.

Lemma startswith_marker (c : char) (s : str) :
  startswith [32; 58] (c :: s)
  = (32 =? c) && match s with d :: _ => 58 =? d | [] => false end.
Proof.
  destruct s; simpl; [by rewrite andb_false_r|by rewrite andb_true_r].
Qed.

(** With the marker put where it first stood, a space and a last argument
    that has no space and does not start with a colon make no marker. *)
Lemma no_marker_after (sp0 sp1 l : str) :
  index_of [32; 58] (sp0 ++ [32; 58] ++ sp1) = Some (length sp0) →
  32 ∉ l → startswith [58] l = false →
  index_of [32; 58] (sp0 ++ 32 :: l) = None.
Proof.
  intros H Hl Hc. induction sp0 as [|c t IH].
  - change ([] ++ 32 :: l) with (32 :: l).
    rewrite index_of_cons, startswith_marker.
    replace (match l with d :: _ => 58 =? d | [] => false end) with false
      by (destruct l; [done|]; simpl in Hc; by rewrite andb_true_r in Hc).
    rewrite andb_false_r.
    destruct (index_of [32; 58] l) as [k|] eqn:Hk; [|done].
    apply index_of_Some in Hk. destruct Hl. rewrite Hk.
    rewrite !elem_of_app, elem_of_cons. auto.
  - change ((c :: t) ++ 32 :: l) with (c :: t ++ 32 :: l).
    change ((c :: t) ++ [32; 58] ++ sp1) with (c :: t ++ [32; 58] ++ sp1) in H.
    rewrite index_of_cons in H. rewrite index_of_cons.
    rewrite startswith_marker in H. rewrite startswith_marker.
    destruct (32 =? c); cbn [andb] in *.
    + destruct t as [|d t].
      * rewrite IH; [done|]. by apply index_of_here.
      * cbn [app] in *. destruct (58 =? d); [done|].
        match type of H with
        | S <$> ?x = _ => destruct x as [k|] eqn:Hk; [|by simpl in H]
        end.
        simpl in H. simplify_eq. by rewrite IH.
    + match type of H with
      | S <$> ?x = _ => destruct x as [k|] eqn:Hk; [|by simpl in H]
      end.
      simpl in H. simplify_eq. by rewrite IH.
Qed.

Lemma spec_rejoin_snoc (code : str) (args : list str) (l : str) :
  spec_rejoin code (args ++ [l])
  = str_join [32] (code :: args)
      ++ (if contains [32] l then [32; 58] else [32]) ++ l.
Proof.
  unfold spec_rejoin. by rewrite last_snoc, removelast_last.
Qed.

(** C9, as the code has it: for an Event parsed from a line whose remainder
    has a trailing-parameter marker, re-joining gives the remainder back,
    character for character, when the last argument contains a space; when
    it contains none and does not begin with a colon, re-joining gives a
    line that parses to the same command and arguments. *)
Theorem rejoin_roundtrip (raw0 : bytes) (e : Event) (rem : str)
    (He : parse raw0 = Ok e)
    (Hp : parse_prefix (line e) = Ok (source e, nick e, user e, host e, rem))
    (Hm : contains (u " :") rem = true) :
  (contains (u " ") (msg e) = true →
   spec_rejoin (code e) (args e) = rem)
  ∧ (contains (u " ") (msg e) = false →
     startswith (u ":") (msg e) = false →
     parse_params (spec_rejoin (code e) (args e)) = Ok (code e, args e)).
Proof.
  destruct (parse_Ok_inv raw0 e He) as (rem' & fst & _ & _ & Hp' & Hq & Hl & _).
  rewrite Hp in Hp'. simplify_eq.
  unfold contains in Hm.
  destruct (index_of (u " :") rem') as [i|] eqn:Hi; [|done].
  destruct (parse_params_marker rem' i Hi) as (cd & ar & Hsplit & Hq').
  rewrite Hq in Hq'. injection Hq' as Hcd Har.
  rewrite Har, last_snoc in Hl. injection Hl as Hl.
  rewrite Har, Hcd, <- Hl. clear Hcd Har Hl Hq.
  rewrite spec_rejoin_snoc.
  rewrite <- Hsplit, (str_join_split_on 32 (take i rem')).
  change (u " ") with [32]. change (u ":") with [58].
  change (u " :") with [32; 58] in Hi.
  pose proof (index_of_Some _ _ _ Hi) as Hs. simpl length in Hs.
  split.
  - intros ->. by symmetry.
  - intros Hsp Hcolon. rewrite Hsp.
    apply contains_char_false in Hsp.
    assert (index_of [32; 58] (take i rem' ++ 32 :: drop (i + 2) rem') = None)
      as Hnone.
    { apply (no_marker_after _ (drop (i + 2) rem')); [|done..].
      rewrite (index_of_split_length _ _ _ Hi). by rewrite <- Hs. }
    cbn [app]. destruct (parse_params_plain _ Hnone) as (cd2 & ar2 & Hs2 & ->).
    rewrite split_on_app, Hsplit, split_on_absent in Hs2 by done.
    cbn [app] in Hs2. by simplify_eq.
Qed.

(** A last argument with a space: the remainder comes back. *)
Lemma rejoin_roundtrip_witness :
  spec_rejoin (code hello_event) (args hello_event)
  = u "PRIVMSG #chan :hello world".
Proof.
  apply (rejoin_roundtrip _ hello_event _ parse_hello); by vm_compute.
Defined.

(** C9, as stated, fails: a last argument without a space that begins with
    a colon is re-joined into a line that differs from the remainder and
    parses to another argument. *)
Lemma rejoin_counterexample :
  ∃ e, parse (b "PRIVMSG #chan ::)" ++ [x0d; x0a]) = Ok e
       ∧ args e = [u "#chan"; u ":)"]
       ∧ spec_rejoin (code e) (args e) = u "PRIVMSG #chan :)"
       ∧ spec_rejoin (code e) (args e) ≠ u "PRIVMSG #chan ::)"
       ∧ parse_params (spec_rejoin (code e) (args e))
         = Ok (u "PRIVMSG", [u "#chan"; u ")"]).
Proof. eexists. repeat split; by vm_compute. Qed.

(** *** Decoded text can be encoded again *)

(** Turns the tests on bytes and code points into arithmetic. *)
Ltac arith :=
  unfold scalar, continuation in *;
  repeat match goal with
         | H : _ && _ = true |- _ => apply andb_true_iff in H as [? ?]
         | H : (_ <=? _) = true |- _ => apply N.leb_le in H
         | H : (_ <? _) = true |- _ => apply N.ltb_lt in H
         | H : (_ <? _) = false |- _ => apply N.ltb_ge in H
         | H : context [if ?x =? ?y then _ else _] |- _ =>
           destruct (N.eqb_spec x y)
         end;
  rewrite ?orb_true_iff, ?andb_true_iff, ?N.ltb_lt, ?N.leb_le; try lia.

Lemma utf8_decode_scalar (bs : bytes) (s : str) :
  utf8_decode bs = Some s → Forall (λ c, scalar c = true) s.
Proof.
  remember (length bs) as n eqn:Hn. revert bs s Hn.
  induction (lt_wf n) as [n _ IH]. intros bs s ->.
  destruct bs as [|b0 r0]; [intros [= <-]; constructor|].
  cbn [utf8_decode]. cbv zeta.
  pose proof (Byte.to_N_bounded b0) as B0. revert B0.
  generalize (Byte.to_N b0). intros n0 B0.
  destruct (n0 <? 0x80) eqn:H1.
  { destruct (utf8_decode r0) as [s0|] eqn:E; [|done]. intros [= <-].
    constructor; [arith|].
    apply (IH (length r0)) with r0; [simpl; lia|done..]. }
  destruct ((0xC2 <=? n0) && (n0 <=? 0xDF)) eqn:H2.
  { destruct r0 as [|b1 r1]; [done|].
    generalize (Byte.to_N b1). intros n1.
    destruct (continuation n1) eqn:H3; [|done].
    destruct (utf8_decode r1) as [s0|] eqn:E; [|done]. intros [= <-].
    constructor; [arith|].
    apply (IH (length r1)) with r1; [simpl; lia|done..]. }
  destruct ((0xE0 <=? n0) && (n0 <=? 0xEF)) eqn:H3.
  { destruct r0 as [|b1 [|b2 r2]]; [done..|].
    generalize (Byte.to_N b1) (Byte.to_N b2). intros n1 n2.
    match goal with |- context [if ?t then _ else None] =>
      destruct t eqn:H4; [|done] end.
    destruct (utf8_decode r2) as [s0|] eqn:E; [|done]. intros [= <-].
    constructor; [arith|].
    apply (IH (length r2)) with r2; [simpl; lia|done..]. }
  destruct ((0xF0 <=? n0) && (n0 <=? 0xF4)) eqn:H4; [|done].
  destruct r0 as [|b1 [|b2 [|b3 r3]]]; [done..|].
  generalize (Byte.to_N b1) (Byte.to_N b2) (Byte.to_N b3). intros n1 n2 n3.
  match goal with |- context [if ?t then _ else None] =>
    destruct t eqn:H5; [|done] end.
  destruct (utf8_decode r3) as [s0|] eqn:E; [|done]. intros [= <-].
  constructor; [arith|].
  apply (IH (length r3)) with r3; [simpl; lia|done..].
Qed.

Lemma utf8_encode_char_scalar (c : char) :
  scalar c = true → is_Some (utf8_encode_char c).
Proof.
  intros H. unfold utf8_encode_char.
  destruct (c <? 0x80) eqn:H1; [by eexists|].
  destruct (c <? 0x800) eqn:H2; [by eexists|].
  destruct (c <? 0x10000) eqn:H3.
  - destruct ((0xD800 <=? c) && (c <=? 0xDFFF)) eqn:H4; [|by eexists].
    exfalso. revert H. arith.
  - destruct (c <? 0x110000) eqn:H4; [by eexists|].
    exfalso. revert H. arith.
Qed.

Lemma utf8_encode_scalar (s : str) :
  Forall (λ c, scalar c = true) s → is_Some (utf8_encode s).
Proof.
  induction 1 as [|c s Hc _ [bs IH]]; [by eexists|]. simpl.
  destruct (utf8_encode_char_scalar c Hc) as [x ->]. rewrite IH. by eexists.
Qed.

Lemma scalar_ascii (t : string) :
  Forall (λ c, scalar c = true) (u t).
Proof.
  unfold u. apply Forall_forall. intros c Hc.
  apply list_elem_of_In, in_map_iff in Hc as (a & <- & _).
  destruct a as [[] [] [] [] [] [] [] []]; done.
Qed.

Lemma split_on_Forall (P : char → Prop) (c : char) (s : str) :
  Forall P s → Forall (Forall P) (split_on c s).
Proof.
  induction 1 as [|x s Hx Hs IH]; [by repeat constructor|].
  rewrite split_on_cons. destruct (x =? c); [by constructor|].
  destruct (split_on c s) as [|w ws]; [by repeat constructor|].
  inversion_clear IH. by repeat constructor.
Qed.

Lemma slice_Forall {A} (P : A → Prop) (s : list A) (lo hi : option Z) :
  Forall P s → Forall P (slice s lo hi).
Proof. intros H. unfold slice. by apply Forall_take, Forall_drop. Qed.

(** Every argument of a parsed Event is a piece of the decoded line, so
    each can be encoded. *)
Lemma parse_args_scalar (raw0 : bytes) (e : Event) :
  parse raw0 = Ok e → Forall (Forall (λ c, scalar c = true)) (args e).
Proof.
  intros (rem & first & _ & Hd & Hp & Hq & _)%parse_Ok_inv.
  apply utf8_decode_scalar in Hd.
  assert (Forall (λ c, scalar c = true) rem) as Hrem.
  { revert Hp. unfold parse_prefix.
    destruct (item (line e) 0) as [c0|]; [|done]. cbn [rbind].
    destruct (c0 =? 58); [|by intros [= _ _ _ _ <-]].
    destruct (index (u " ") (line e)) as [pos|]; [|done]. cbn [rbind].
    destruct (_ && _); intros [= _ _ _ _ <-]; by apply slice_Forall. }
  revert Hq. unfold parse_params, split1.
  destruct (index_of (u " :") rem) as [i|].
  - rewrite item_0. cbn [rbind].
    pose proof (split_on_Forall _ 32 (take i rem) (Forall_take _ _ _ Hrem)) as H.
    destruct (split_on 32 (take i rem)) as [|cd ar]; [done|].
    rewrite item_1. cbn [rbind length]. simpl Nat.eqb. intros [= _ <-].
    inversion_clear H. apply Forall_app. split; [done|].
    repeat constructor. by apply Forall_drop.
  - rewrite item_0. cbn [rbind].
    pose proof (split_on_Forall _ 32 rem Hrem) as H.
    destruct (split_on 32 rem) as [|cd ar]; [done|].
    cbn [length]. simpl Nat.eqb. intros [= _ <-]. by inversion_clear H.
Qed.

(** ** The dispatcher and the connection *)

(** Unfolds the monad's plumbing. *)
Ltac run :=
  unfold logger; unfold bind, ret, raise, lift, gets, modify; cbv beta iota.

Lemma spawn_all_spec (items : list (str * Callback)) (event : Event)
    (w : World) :
  spawn_all items event w
  = (Ok tt,
     set_callbacks (callbacks w ++ map (λ kv, (kv.2, event)) items) w).
Proof.
  revert w. induction items as [|[k v] items IH]; intros w.
  - destruct w. unfold set_callbacks. simpl. by rewrite app_nil_r.
  - simpl spawn_all. run. rewrite IH. unfold set_callbacks. simpl.
    by rewrite <- app_assoc.
Qed.

Lemma dispatch_spec (event : Event) (w : World) :
  dispatch event w
  = (Ok tt,
     set_callbacks
       (callbacks w ++ map (λ kv, (kv.2, event)) (IRC_COMMAND_REGISTRY w)) w).
Proof. unfold dispatch. run. apply spawn_all_spec. Qed.

(** A line that encodes, sent on an attached stream: logged, then written
    with the line terminator. *)
Lemma send_message_spec (ln : str) (data : bytes) (written : list bytes)
    (w : World) :
  utf8_encode ln = Some data → stream w = Some written →
  send_message ln w
  = (Ok tt,
     set_stream (Some (written ++ [data ++ CRLF]))
       (set_log (log w ++ [DebugSending data]) w)).
Proof.
  intros He Hs. unfold send_message, encode, stream_write. run.
  rewrite He. simpl. by rewrite Hs.
Qed.

(** With no stream attached the write fails, after the line was logged. *)
Lemma send_message_detached (ln : str) (data : bytes) (w : World) :
  utf8_encode ln = Some data → stream w = None →
  send_message ln w
  = (Raise AttributeError, set_log (log w ++ [DebugSending data]) w).
Proof.
  intros He Hs. unfold send_message, encode, stream_write. run.
  rewrite He. simpl. by rewrite Hs.
Qed.

(** A PING is answered by [handle_event] itself, and queues nothing. *)
Lemma handle_event_ping (event : Event) (w : World) (written : list bytes)
    (arg0 : str) (rest : list str) (data : bytes) :
  stream w = Some written → code event = u "PING" →
  args event = arg0 :: rest → utf8_encode (u "PONG " ++ arg0) = Some data →
  handle_event event w
  = (Ok tt,
     set_reads (S (reads w))
       (set_stream (Some (written ++ [data ++ CRLF]))
          (set_log (log w ++ [DebugSending data]) w))).
Proof.
  intros Hs Hc Ha He. unfold handle_event.
  rewrite bool_decide_true by done. run. rewrite Ha, item_0. cbn iota.
  rewrite (send_message_spec _ data written w He Hs).
  unfold wait_for_input. by simpl.
Qed.

(** Any other event is queued for every entry of the registry. *)
Lemma handle_event_other (event : Event) (w : World) (written : list bytes) :
  stream w = Some written → code event ≠ u "PING" →
  handle_event event w
  = (Ok tt,
     set_reads (S (reads w))
       (set_callbacks
          (callbacks w ++ map (λ kv, (kv.2, event)) (IRC_COMMAND_REGISTRY w))
          w)).
Proof.
  intros Hs Hc. unfold handle_event. rewrite bool_decide_false by done.
  run. rewrite dispatch_spec. unfold wait_for_input. simpl. by rewrite Hs.
Qed.

(** C4: on an attached stream, an event with code PING is answered at once
    with the line PONG and its first argument, logged and written by
    [handle_event] itself, and the callback queue is left as it was: no
    handler is spawned. For an event with any other code the queue grows
    by one callback for every entry of the registry, in its order, each
    with this event, and nothing is written or logged. Either way the next
    read is armed and nothing else changes. *)
Theorem handle_event_spec (event : Event) (w : World) (written : list bytes)
    (Hs : stream w = Some written) :
  let w' := (handle_event event w).2 in
  (∀ arg0 rest data,
     code event = u "PING" → args event = arg0 :: rest →
     utf8_encode (u "PONG " ++ arg0) = Some data →
     (handle_event event w).1 = Ok tt
     ∧ stream w' = Some (written ++ [data ++ CRLF])
     ∧ log w' = log w ++ [DebugSending data]
     ∧ callbacks w' = callbacks w
     ∧ reads w' = S (reads w)
     ∧ channels w' = channels w
     ∧ most_recent_highlight_channel w' = most_recent_highlight_channel w
     ∧ most_recent_highlight_nick w' = most_recent_highlight_nick w
     ∧ IRC_COMMAND_REGISTRY w' = IRC_COMMAND_REGISTRY w
     ∧ posted w' = posted w)
  ∧ (code event ≠ u "PING" →
     (handle_event event w).1 = Ok tt
     ∧ callbacks w'
       = callbacks w ++ map (λ kv, (kv.2, event)) (IRC_COMMAND_REGISTRY w)
     ∧ stream w' = Some written
     ∧ log w' = log w
     ∧ reads w' = S (reads w)
     ∧ channels w' = channels w
     ∧ most_recent_highlight_channel w' = most_recent_highlight_channel w
     ∧ most_recent_highlight_nick w' = most_recent_highlight_nick w
     ∧ IRC_COMMAND_REGISTRY w' = IRC_COMMAND_REGISTRY w
     ∧ posted w' = posted w).
Proof.
  intros w'. subst w'. split.
  - intros arg0 rest data Hc Ha He.
    rewrite (handle_event_ping event w written arg0 rest data Hs Hc Ha He).
    by simpl.
  - intros Hc. rewrite (handle_event_other event w written Hs Hc).
    by simpl.
Qed.

(** The answer to a PING read off the state: the PONG line is on the wire
    and the callback queue did not grow. *)
Lemma handle_event_ping_no_fanout (event : Event) (w : World)
    (written : list bytes) (arg0 : str) (rest : list str) (data : bytes) :
  stream w = Some written → code event = u "PING" →
  args event = arg0 :: rest → utf8_encode (u "PONG " ++ arg0) = Some data →
  stream (handle_event event w).2 = Some (written ++ [data ++ CRLF])
  ∧ callbacks (handle_event event w).2 = callbacks w.
Proof.
  intros Hs Hc Ha He.
  by rewrite (handle_event_ping event w written arg0 rest data Hs Hc Ha He).
Qed.

(** An event with code PING and no argument: [event.args[0]] raises. *)
Lemma handle_event_ping_no_argument (event : Event) (w : World) :
  code event = u "PING" → args event = [] →
  handle_event event w = (Raise IndexError, w).
Proof.
  intros Hc Ha. unfold handle_event. rewrite bool_decide_true by done.
  run. by rewrite Ha.
Qed.

(** *** [join] *)

Lemma join_spec (name : str) (data : bytes) (written : list bytes)
    (w : World) :
  utf8_encode (u "JOIN #" ++ name) = Some data → stream w = Some written →
  join name w
  = (Ok tt,
     set_stream (Some (written ++ [data ++ CRLF]))
       (set_log (log w ++ [DebugSending data])
          (set_channels ({[u "#" ++ name]} ∪ channels w) w))).
Proof.
  intros He Hs. unfold join. run.
  exact (send_message_spec _ data written (set_channels _ w) He Hs).
Qed.

Lemma filter_eq_absent (x : str) (l : list str) :
  x ∉ l → filter (λ y, y = x) l = [].
Proof.
  induction l as [|y l IH]; [done|]. intros H.
  apply not_elem_of_cons in H as [Hne H].
  rewrite filter_cons. case_decide; [done|]. by apply IH.
Qed.

Lemma filter_eq_once (x : str) (l : list str) :
  NoDup l → x ∈ l → length (filter (λ y, y = x) l) = 1%nat.
Proof.
  induction 1 as [|y l Hy Hl IH]; [by intros ?%elem_of_nil|].
  intros Hx. rewrite filter_cons. case_decide as E.
  - subst y. simpl. by rewrite filter_eq_absent.
  - apply IH. by apply elem_of_cons in Hx as [->|].
Qed.

(** C7: joining a channel twice, on an attached stream, writes two JOIN
    lines and leaves the set of channels as the first join left it, with
    one entry for the channel. *)
Theorem join_twice (name : str) (w : World) (written : list bytes)
    (data : bytes)
    (Hs : stream w = Some written)
    (He : utf8_encode (u "JOIN #" ++ name) = Some data) :
  ∃ w1 w2,
    join name w = (Ok tt, w1) ∧ join name w1 = (Ok tt, w2)
    ∧ channels w1 = {[u "#" ++ name]} ∪ channels w
    ∧ channels w2 = channels w1
    ∧ length (filter (λ c, c = u "#" ++ name) (elements (channels w2)))
      = 1%nat
    ∧ stream w2 = Some (written ++ [data ++ CRLF; data ++ CRLF]).
Proof.
  eexists _, _. split; [by apply join_spec|].
  split; [by apply join_spec|]. simpl.
  split; [done|]. split; [by rewrite (assoc_L (∪)), (idemp_L (∪))|]. split.
  - apply filter_eq_once; [apply NoDup_elements|].
    apply elem_of_elements, elem_of_union. left. by apply elem_of_singleton.
  - by rewrite <- app_assoc.
Qed.

(** *** [_read_message] *)

(** A line the parser rejects ends [_read_message] with the parser's
    exception: the state is untouched and no further read is armed. *)
Lemma read_message_raises (raw0 : bytes) (x : exn) (w : World) :
  parse raw0 = Raise x → _read_message raw0 w = (Raise x, w).
Proof. intros H. unfold _read_message. run. by rewrite H. Qed.

(** A line that parses to a PING, read on an attached stream: the first
    argument exists and encodes, being a piece of the decoded line, and the
    PONG goes out before the next read is armed. *)
Lemma read_message_ping (raw0 : bytes) (e : Event) (w : World)
    (written : list bytes) :
  parse raw0 = Ok e → code e = u "PING" → stream w = Some written →
  ∃ arg0 data,
    head (args e) = Some arg0
    ∧ utf8_encode (u "PONG " ++ arg0) = Some data
    ∧ _read_message raw0 w
      = (Ok tt,
         set_reads (S (reads w))
           (set_stream (Some (written ++ [data ++ CRLF]))
              (set_log (log w ++ [DebugSending data]) w))).
Proof.
  intros He Hc Hs.
  pose proof (parse_args_scalar raw0 e He) as Hsc.
  destruct (parse_Ok_inv raw0 e He) as (_ & first & _ & _ & _ & _ & _ & Hh & _).
  destruct (args e) as [|arg0 rest] eqn:Ha; [done|]. simpl in Hh.
  injection Hh as ->. inversion_clear Hsc as [|? ? Hfirst _].
  destruct (utf8_encode_scalar (u "PONG " ++ first)) as [data Hdata].
  { apply Forall_app. split; [apply scalar_ascii|done]. }
  exists first, data. split; [done|]. split; [done|].
  unfold _read_message. run. rewrite He. cbv beta iota. rewrite Hc.
  change (contains (u "MSG") (u "PING")) with false. rewrite andb_false_r.
  cbv beta iota.
  by apply (handle_event_ping e w written first rest data).
Qed.

(** ** Highlights *)

Example parse_build :
  parse (b ":alice!al@desk PRIVMSG #dev :the BUILD failed today"
         ++ [x0d; x0a])
  = Ok build_event.
Proof. by vm_compute. Qed.

Example parse_private :
  parse (b ":alice!al@desk PRIVMSG wormhole :are you there" ++ [x0d; x0a])
  = Ok private_event.
Proof. by vm_compute. Qed.


(** The loop returns at the first highlight that matches, and logs it. *)
Lemma scan_highlights_spec (m : str) (hls : list Trigger) (w : World) :
  scan_highlights m hls w
  = match List.find (trigger_matches m) hls with
    | Some hl => (Ok true, set_log (log w ++ [DebugFound hl]) w)
    | None => (Ok false, w)
    end.
Proof.
  induction hls as [|hl hls IH]; [done|]. simpl.
  destruct (trigger_matches m hl); [done|]. apply IH.
Qed.


Lemma contains_highlight_unfold (event : Event) (w : World) :
  contains_highlight event w
  = if bool_decide (code event = u "PRIVMSG") then
      match channel event with
      | None => (Raise AttributeError, w)
      | Some c =>
        match List.find (trigger_matches (lower (msg event)))
                (highlights_get (u "all")
                 ++ highlights_get (strip (one_of (u "#")) c)) with
        | Some hl => (Ok true, set_log (log w ++ [DebugFound hl]) w)
        | None => (Ok false, w)
        end
      end
    else (Ok false, w).
Proof.
  unfold contains_highlight. destruct (bool_decide _); [|done]. simpl negb.
  cbn iota. unfold get_highlights_for. destruct (channel event) as [c|]; [|done].
  run. apply scan_highlights_spec.
Qed.


(** The predicate touches nothing but the log. *)
Lemma contains_highlight_frame (event : Event) (w : World) :
  ∃ l, (contains_highlight event w).2 = set_log l w.
Proof.
  rewrite contains_highlight_unfold.
  assert (w = set_log (log w) w) as Hw by by destruct w.
  destruct (bool_decide _); [|by exists (log w)].
  destruct (channel event); [|by exists (log w)].
  destruct (List.find _ _); [by eexists|by exists (log w)].
Qed.

Lemma existsb_find {A} (f : A → bool) (l : list A) :
  existsb f l = match List.find f l with Some _ => true | None => false end.
Proof. induction l as [|x l IH]; [done|]. simpl. by destruct (f x). Qed.

(** With a channel the predicate returns what the specification's words
    say; the two part only at an event without channel. *)
Lemma contains_highlight_refines_spec (event : Event) (w : World) (c : str) :
  channel event = Some c →
  (contains_highlight event w).1 = Ok (spec_contains_highlight event).
Proof.
  intros Hch. rewrite contains_highlight_unfold.
  unfold spec_contains_highlight. rewrite Hch, existsb_find.
  destruct (bool_decide _); [|done]. simpl.
  by destruct (List.find _ _).
Qed.

(** C10: for an event with code PRIVMSG and no channel the predicate does
    not return: [channel.strip("#")] raises AttributeError, and the handler
    [ping_insights] ends with that exception. *)
Theorem highlight_unset_channel_raises (event : Event) (w : World)
    (Hc : code event = u "PRIVMSG") (Hn : channel event = None) :
  contains_highlight event w = (Raise AttributeError, w)
  ∧ ping_insights event w = (Raise AttributeError, w).
Proof.
  assert (contains_highlight event w = (Raise AttributeError, w)) as H.
  { rewrite contains_highlight_unfold, bool_decide_true, Hn; done. }
  split; [done|]. unfold ping_insights, bind. by rewrite H.
Qed.

(** The channel is unset exactly when the first argument has no "#". *)
Lemma channel_unset (raw0 : bytes) (e : Event) :
  parse raw0 = Ok e →
  ∃ first, head (args e) = Some first
           ∧ (channel e = None ↔ contains (u "#") first = false).
Proof.
  intros (rem & first & _ & _ & _ & _ & _ & Hh & Hch)%parse_Ok_inv.
  exists first. split; [done|]. rewrite Hch. by destruct (contains _ _).
Qed.

(** *** The forward handler *)

(** C6, as the code has it: for an event the predicate accepts, the
    handler posts the JSON object whose "text" is "(channel) nick says:
    msg" to the configured hook. When the post returns a response, whatever its status, the
    handler returns and the most recent highlight's channel and nick are
    this event's; when the post raises, the exception leaves the handler
    and both fields keep their values. *)
Theorem ping_insights_forwards (event : Event) (w : World)
    (Hhit : (contains_highlight event w).1 = Ok true) :
  let w' := (ping_insights event w).2 in
  posted w' = posted w ++ [(hook_url, highlight_body event)]
  ∧ match requests_post hook_url (highlight_body event) with
    | Ok response =>
      (ping_insights event w).1 = Ok tt
      ∧ most_recent_highlight_channel w' = channel event
      ∧ most_recent_highlight_nick w' = nick event
    | Raise x =>
      (ping_insights event w).1 = Raise x
      ∧ most_recent_highlight_channel w'
        = most_recent_highlight_channel w
      ∧ most_recent_highlight_nick w' = most_recent_highlight_nick w
    end.
Proof.
  destruct (contains_highlight_frame event w) as [l Hl].
  unfold ping_insights, post. fold (highlight_body event). run.
  destruct (contains_highlight event w) as [r w0]. simpl in Hhit, Hl.
  subst r w0. cbn iota. simpl.
  destruct (requests_post hook_url (highlight_body event)); by simpl.
Qed.

(** An event the predicate rejects is not forwarded: nothing is posted and
    the state is as the predicate left it. *)
Lemma ping_insights_skips (event : Event) (w : World) :
  (contains_highlight event w).1 = Ok false →
  ping_insights event w = (Ok tt, w).
Proof.
  rewrite contains_highlight_unfold. unfold ping_insights, bind.
  rewrite contains_highlight_unfold.
  destruct (bool_decide _); [|done].
  destruct (channel event); [|done].
  by destruct (List.find _ _).
Qed.

(** ** Messages from the other service *)

(** The line [send_to_channel] sends. *)
Lemma send_to_channel_spec (chan ln : str) (data : bytes)
    (written : list bytes) (w : World) :
  utf8_encode (u "PRIVMSG " ++ chan ++ u " :" ++ color_wrap ln) = Some data →
  stream w = Some written →
  send_to_channel chan ln w
  = (Ok tt,
     set_stream (Some (written ++ [data ++ CRLF]))
       (set_log (log w ++ [DebugSending data]) w)).
Proof. intros He Hs. by apply send_message_spec. Qed.

(** A body with a colon that names a channel the client has not joined:
    the error is logged and the message is sent to that channel all the
    same, for [send_from_slack] goes on after the log call. *)
Lemma send_from_slack_unjoined (user0 body left right : str) (data : bytes)
    (written : list bytes) (w : World) :
  let chan := u "#" ++ strip (one_of (u "#")) left in
  let said :=
    u "[slack] @" ++ user0 ++ u " said '" ++ strip isspace right ++ u "'" in
  contains (u ":") body = true →
  split1 (u ":") body = [left; right] →
  chan ∉ channels w →
  stream w = Some written →
  utf8_encode (u "PRIVMSG " ++ chan ++ u " :" ++ color_wrap said)
  = Some data →
  send_from_slack user0 body w
  = (Ok tt,
     set_stream (Some (written ++ [data ++ CRLF]))
       (set_log (log w ++ [ErrorNotConnected user0 chan; DebugSending data])
          w)).
Proof.
  intros chan said Hc Hsp Hnot Hs He.
  unfold send_from_slack, slack_target. rewrite Hc, Hsp. run.
  fold chan. rewrite bool_decide_false by done.
  fold said.
  erewrite (send_to_channel_spec chan said data written);
    [|exact He|exact Hs].
  unfold set_log, set_stream. simpl. by rewrite <- app_assoc.
Qed.

(** The same body when the channel is joined: sent, and no error logged. *)
Lemma send_from_slack_joined (user0 body left right : str) (data : bytes)
    (written : list bytes) (w : World) :
  let chan := u "#" ++ strip (one_of (u "#")) left in
  let said :=
    u "[slack] @" ++ user0 ++ u " said '" ++ strip isspace right ++ u "'" in
  contains (u ":") body = true →
  split1 (u ":") body = [left; right] →
  chan ∈ channels w →
  stream w = Some written →
  utf8_encode (u "PRIVMSG " ++ chan ++ u " :" ++ color_wrap said)
  = Some data →
  send_from_slack user0 body w
  = (Ok tt,
     set_stream (Some (written ++ [data ++ CRLF]))
       (set_log (log w ++ [DebugSending data]) w)).
Proof.
  intros chan said Hc Hsp Hin Hs He.
  unfold send_from_slack, slack_target. rewrite Hc, Hsp. run.
  fold chan. rewrite bool_decide_true by done.
  fold said. by apply send_to_channel_spec.
Qed.

(** No colon and no highlight seen yet: the error is logged and the
    function returns; nothing is sent. *)
Lemma send_from_slack_no_destination (user0 body : str) (w : World) :
  contains (u ":") body = false →
  truthy (most_recent_highlight_channel w) = false →
  send_from_slack user0 body w
  = (Ok tt, set_log (log w ++ [ErrorNoDestination user0]) w).
Proof.
  intros Hc Ht. unfold send_from_slack, slack_target. rewrite Hc. run.
  by rewrite Ht.
Qed.

(** C1 on the code: the client has a stream and has joined no channel, and
    the other service delivers "general: deploy done" from alice. The error
    is logged, and the message goes out to #general nevertheless. *)
Theorem send_from_slack_unjoined_sends :
  let w := set_stream (Some []) init in
  let w' := (send_from_slack (u "alice") (u "general: deploy done") w).2 in
  (u "#general" ∉ channels w)
  ∧ existsb is_error (log w') = true
  ∧ log w'
    = [ErrorNotConnected (u "alice") (u "#general");
       DebugSending (b "PRIVMSG #general :[slack] @alice said 'deploy done'")]
  ∧ stream w'
    = Some [b "PRIVMSG #general :[slack] @alice said 'deploy done'" ++ CRLF].
Proof.
  cbv zeta. split; [apply not_elem_of_empty|].
  rewrite (send_from_slack_unjoined (u "alice") (u "general: deploy done")
             (u "general") (u " deploy done")
             (b "PRIVMSG #general :[slack] @alice said 'deploy done'") []);
    [done|done|done|apply not_elem_of_empty|done|by vm_compute].
Qed.

(** ** [color_wrap] *)

Lemma span_word_stop (a : str) (x : char) (t : str) :
  is_word x = false →
  span_word (a ++ x :: t) = let (w, r) := span_word a in (w, r ++ x :: t).
Proof.
  intros Hx. induction a as [|c a IH]; simpl.
  - by rewrite Hx.
  - destruct (is_word c); [|done]. rewrite IH. by destruct (span_word a).
Qed.

Lemma span_word_all (w : str) :
  Forall (λ c, is_word c = true) w → span_word w = (w, []).
Proof.
  induction 1 as [|c w Hc _ IH]; simpl; [done|]. by rewrite Hc, IH.
Qed.

Lemma span_word_inv (s w r : str) :
  span_word s = (w, r) → s = w ++ r ∧ Forall (λ c, is_word c = true) w.
Proof.
  revert w r. induction s as [|c s IH]; intros w r; simpl.
  - by intros [= <- <-].
  - destruct (is_word c) eqn:Hc; [|by intros [= <- <-]].
    destruct (span_word s) as [w' r'] eqn:E. intros [= <- <-].
    destruct (IH w' r' eq_refl) as [-> Hw]. split; [done|]. by constructor.
Qed.

Lemma is_word_dollar : is_word 36 = false.
Proof. done. Qed.

Lemma is_word_close : is_word 125 = false.
Proof. done. Qed.

(** The pattern matches at a placeholder, and captures its name. *)
Lemma match_at_placeholder (name post : str) :
  is_name name → match_at (placeholder name ++ post) = Some (name, post).
Proof.
  intros [Hne Hw]. unfold match_at, placeholder.
  change (startswith (u "${") ((u "${" ++ name ++ u "}") ++ post)) with true.
  cbv iota.
  change (drop 2 ((u "${" ++ name ++ u "}") ++ post))
    with ((name ++ [125]) ++ post).
  rewrite <- app_assoc. simpl app.
  rewrite (span_word_stop name 125 post is_word_close).
  rewrite (span_word_all name Hw). simpl app.
  destruct name; [done|]. by rewrite N.eqb_refl.
Qed.

(** Where the pattern matches, a placeholder stands. *)
Lemma match_at_inv (s w rest : str) :
  match_at s = Some (w, rest) → s = placeholder w ++ rest ∧ is_name w.
Proof.
  unfold match_at. destruct (startswith (u "${") s) eqn:Hs; [|done].
  apply startswith_inv in Hs. change (length (u "${")) with 2%nat in Hs.
  destruct (span_word (drop 2 s)) as [w' r] eqn:E.
  apply span_word_inv in E as [E Hw].
  destruct w' as [|c0 w']; [done|]. destruct r as [|c r]; [done|].
  destruct (N.eqb_spec c 125) as [->|]; [|done]. intros [= <- <-].
  split; [|by split]. rewrite Hs, E. unfold placeholder.
  by rewrite <- !app_assoc.
Qed.

(** Before a dollar sign the pattern matches as it does on the text alone:
    no match reaches across the sign. *)
Lemma match_at_before_dollar (pre t : str) :
  pre ≠ [] →
  match_at (pre ++ 36 :: t)
  = (λ wr, (wr.1, wr.2 ++ 36 :: t)) <$> match_at pre.
Proof.
  intros Hpre. unfold match_at.
  destruct pre as [|c [|d pre]]; [done| |].
  - change (startswith (u "${") ([c] ++ 36 :: t))
      with ((36 =? c) && ((123 =? 36) && true)).
    change (startswith (u "${") [c]) with ((36 =? c) && false).
    change (123 =? 36) with false. by rewrite !andb_false_r.
  - change (startswith (u "${") ((c :: d :: pre) ++ 36 :: t))
      with (startswith (u "${") (c :: d :: pre)).
    destruct (startswith (u "${") (c :: d :: pre)); [|done].
    change (drop 2 ((c :: d :: pre) ++ 36 :: t)) with (pre ++ 36 :: t).
    change (drop 2 (c :: d :: pre)) with pre.
    rewrite (span_word_stop pre 36 t is_word_dollar).
    destruct (span_word pre) as [w r].
    destruct w as [|c0 w]; [by destruct r|].
    destruct r as [|x r]; [done|]. simpl app. cbv beta iota.
    by destruct (x =? 125).
Qed.

Lemma match_at_shorter (s w rest : str) :
  match_at s = Some (w, rest) → (length rest < length s)%nat.
Proof.
  intros [-> _]%match_at_inv. unfold placeholder.
  rewrite !length_app. simpl. lia.
Qed.

(** Fuel beyond the length of the text changes nothing. *)
Lemma sub_from_enough (fuel : nat) (s : str) :
  (length s ≤ fuel)%nat → sub_from fuel s = sub_from (length s) s.
Proof.
  revert s. induction (lt_wf fuel) as [fuel _ IH]. intros s Hlen.
  destruct s as [|c tl]; [by destruct fuel|].
  destruct fuel as [|fuel]; [simpl in Hlen; lia|].
  simpl length. simpl sub_from.
  destruct (match_at (c :: tl)) as [[w rest]|] eqn:E.
  - apply match_at_shorter in E. simpl in E, Hlen.
    rewrite (IH fuel) by lia. rewrite (IH (length tl)); [done|lia|lia].
  - simpl in Hlen. rewrite (IH fuel); [done|lia|lia].
Qed.

(** [re.sub] one step at a time. *)
Lemma color_wrap_cons (c : char) (tl : str) :
  color_wrap (c :: tl)
  = match match_at (c :: tl) with
    | Some (word, rest) => _wrap word ++ color_wrap rest
    | None => c :: color_wrap tl
    end.
Proof.
  unfold color_wrap. simpl length. simpl sub_from.
  destruct (match_at (c :: tl)) as [[w rest]|] eqn:E; [|done].
  apply match_at_shorter in E. simpl in E.
  by rewrite sub_from_enough by lia.
Qed.

(** A placeholder is replaced where it stands; the text before it and the
    text after it are transformed on their own. *)
Lemma color_wrap_placeholder (pre name post : str) :
  is_name name →
  color_wrap (pre ++ placeholder name ++ post)
  = color_wrap pre ++ _wrap name ++ color_wrap post.
Proof.
  intros Hname. remember (length pre) as n eqn:Hn. revert pre Hn.
  induction (lt_wf n) as [n _ IH]. intros pre ->.
  destruct pre as [|c tl].
  - rewrite app_nil_l.
    pose proof (match_at_placeholder name post Hname) as Hm.
    change (placeholder name ++ post)
      with (36 :: (123 :: name ++ [125]) ++ post) in *.
    by rewrite color_wrap_cons, Hm.
  - change (placeholder name ++ post)
      with (36 :: (123 :: name ++ [125]) ++ post).
    rewrite (color_wrap_cons c tl).
    change ((c :: tl) ++ 36 :: (123 :: name ++ [125]) ++ post)
      with (c :: tl ++ 36 :: (123 :: name ++ [125]) ++ post).
    rewrite color_wrap_cons.
    change (c :: tl ++ 36 :: (123 :: name ++ [125]) ++ post)
      with ((c :: tl) ++ 36 :: (123 :: name ++ [125]) ++ post).
    rewrite match_at_before_dollar by done.
    change (36 :: (123 :: name ++ [125]) ++ post)
      with (placeholder name ++ post).
    destruct (match_at (c :: tl)) as [[w rest]|] eqn:E;
      unfold fmap, option_fmap, option_map; cbv beta iota; cbn [fst snd].
    + apply match_at_shorter in E.
      by rewrite (IH (length rest) E rest eq_refl), <- app_assoc.
    + rewrite <- app_comm_cons. f_equal.
      apply (IH (length tl)); [simpl; lia|done].
Qed.

(** A text without placeholder is left as it is. *)
Lemma color_wrap_plain (s : str) : no_placeholder s → color_wrap s = s.
Proof.
  induction s as [|c tl IH]; intros Hs; [done|].
  rewrite color_wrap_cons.
  destruct (match_at (c :: tl)) as [[w rest]|] eqn:E.
  - apply match_at_inv in E as [E Hw]. by destruct (Hs [] w rest).
  - f_equal. apply IH. intros pre name post ->.
    by apply (Hs (c :: pre) name post).
Qed.

Lemma colors_two_digits (name code : str) :
  dict_get colors name = Some code →
  ∃ d1 d2, code = [d1; d2] ∧ 48 ≤ d1 ≤ 57 ∧ 48 ≤ d2 ≤ 57.
Proof.
  unfold colors. cbn [dict_get].
  repeat (case_bool_decide;
          [intros [= <-]; eexists _, _; split; [reflexivity|];
           vm_compute; repeat split; discriminate|]).
  done.
Qed.

Lemma _wrap_spec (name : str) :
  _wrap name = match dict_get colors name with
               | Some code => 3 :: code
               | None => name
               end.
Proof.
  unfold _wrap. destruct (dict_get colors name) as [code|] eqn:E; [|done].
  by destruct (colors_two_digits _ _ E) as (d1 & d2 & -> & _).
Qed.

(** C8: every placeholder with a name of word characters is replaced, in
    place, by the byte 3 and the two digits of the colour when the name is
    one of the colours, and by the bare name otherwise; the text before and
    after it is transformed independently, and a text without such a
    placeholder comes back unchanged. *)
Theorem color_wrap_spec :
  (∀ pre name post,
     is_name name →
     color_wrap (pre ++ placeholder name ++ post)
     = color_wrap pre
       ++ match dict_get colors name with
          | Some code => 3 :: code
          | None => name
          end
       ++ color_wrap post)
  ∧ (∀ name code,
       dict_get colors name = Some code →
       ∃ d1 d2, code = [d1; d2] ∧ 48 ≤ d1 ≤ 57 ∧ 48 ≤ d2 ≤ 57)
  ∧ (∀ s, no_placeholder s → color_wrap s = s).
Proof.
  split; [|split].
  - intros pre name post Hname. rewrite <- _wrap_spec.
    by apply color_wrap_placeholder.
  - apply colors_two_digits.
  - apply color_wrap_plain.
Qed.

(** ** More about the parser *)

Lemma rstrip_all {A} (p : A → bool) (t : list A) :
  Forall (λ x, p x = true) t → rstrip p t = [].
Proof.
  induction 1 as [|x t Hx _ IH]; [done|]. simpl. by rewrite IH, Hx.
Qed.

Lemma rstrip_app {A} (p : A → bool) (s t : list A) :
  Forall (λ x, p x = true) t → rstrip p (s ++ t) = rstrip p s.
Proof.
  intros Ht. induction s as [|c s IH]; simpl.
  - by apply rstrip_all.
  - by rewrite IH.
Qed.

(** The parser does not see how a line ends: any run of CR and LF after
    it, the usual CR LF, a bare LF, several of them or none, gives the
    same result, Event or exception. *)
Theorem parse_terminators (raw0 t : bytes)
    (Ht : Forall (λ x, is_crlf x = true) t) :
  parse (raw0 ++ t) = parse raw0.
Proof. unfold parse. by rewrite rstrip_app. Qed.

Lemma split_on_pieces (c : char) (s : str) :
  Forall (λ w, c ∉ w) (split_on c s).
Proof.
  induction s as [|x s IH].
  - repeat constructor. apply not_elem_of_nil.
  - rewrite split_on_cons. destruct (N.eqb_spec x c) as [->|Hne].
    + constructor; [apply not_elem_of_nil|done].
    + destruct (split_on c s) as [|w ws] eqn:E;
        [by destruct (split_on_not_nil c s)|].
      inversion_clear IH as [|? ? Hw Hws]. constructor; [|done].
      apply not_elem_of_cons. split; [congruence|done].
Qed.

(** Only the last argument of a parsed Event can hold a space: the command
    and every argument before the last are free of spaces. *)
Theorem only_last_argument_has_spaces (raw0 : bytes) (e : Event)
    (He : parse raw0 = Ok e) :
  (32 ∉ code e) ∧ Forall (λ a, 32 ∉ a) (removelast (args e)).
Proof.
  destruct (parse_Ok_inv raw0 e He) as (rem & fst & _ & _ & _ & Hq & _).
  destruct (index_of (u " :") rem) as [i|] eqn:Hi.
  - destruct (parse_params_marker rem i Hi) as (cd & ar & Hs & Hq').
    rewrite Hq in Hq'. injection Hq' as -> ->.
    rewrite removelast_last.
    pose proof (split_on_pieces 32 (take i rem)) as H. rewrite Hs in H.
    by inversion_clear H.
  - destruct (parse_params_plain rem Hi) as (cd & ar & Hs & Hq').
    rewrite Hq in Hq'. injection Hq' as -> ->.
    pose proof (split_on_pieces 32 rem) as H. rewrite Hs in H.
    inversion_clear H as [|? ? Hc Har]. split; [done|].
    rewrite removelast_firstn_len. by apply Forall_take.
Qed.




(** What the parser hands out can be sent back: every argument of a parsed
    Event, and its message, encodes as UTF-8. *)
Theorem parsed_text_encodes (raw0 : bytes) (e : Event)
    (He : parse raw0 = Ok e) :
  Forall (λ a, is_Some (utf8_encode a)) (args e)
  ∧ is_Some (utf8_encode (msg e)).
Proof.
  pose proof (parse_args_scalar raw0 e He) as H.
  assert (Forall (λ a, is_Some (utf8_encode a)) (args e)) as Ha.
  { eapply Forall_impl; [exact H|]. intros a. apply utf8_encode_scalar. }
  split; [done|].
  destruct (parse_Ok_inv raw0 e He) as (_ & _ & _ & _ & _ & _ & Hl & _).
  apply last_Some in Hl as [init Hl]. rewrite Hl in Ha.
  apply Forall_app in Ha as [_ Ha]. by inversion_clear Ha.
Qed.

Lemma find_index_of (sub s : str) (k : Z) :
  (0 ≤ k)%Z → find sub s = k → index_of sub s = Some (Z.to_nat k).
Proof.
  unfold find. destruct (index_of sub s) as [i|]; [|lia].
  intros _ <-. by rewrite Nat2Z.id.
Qed.

(** The three fields as the parser cuts them out of a prefix. *)
Lemma parse_prefix_cut (ln s : str) (n us h : option str) (rem : str) :
  parse_prefix ln = Ok (Some s, n, us, h, rem) →
  (0 < find (u "!") s)%Z → (0 < find (u "@") s)%Z →
  n = Some (take (Z.to_nat (find (u "!") s)) s)
  ∧ us = Some (take (Z.to_nat (find (u "@") s)
                     - Z.to_nat (find (u "!") s + 1))
                 (drop (Z.to_nat (find (u "!") s + 1)) s))
  ∧ h = Some (drop (Z.to_nat (find (u "@") s + 1)) s).
Proof.
  unfold parse_prefix.
  destruct (item ln 0) as [c0|]; [|done]. cbn [rbind].
  destruct (c0 =? 58); [|done].
  destruct (index (u " ") ln) as [pos|]; [|done]. cbn [rbind].
  set (s' := slice ln (Some 1%Z) (Some pos)).
  destruct ((0 <? find (u "!") s')%Z && (0 <? find (u "@") s')%Z) eqn:Hij.
  - intros [= <- <- <- <- _] Hi Hj.
    by rewrite slice_to, slice_between, slice_from by lia.
  - intros [= <- _ _ _ _] Hi Hj.
    apply Z.ltb_lt in Hi, Hj. by rewrite Hi, Hj in Hij.
Qed.

(** A prefix of the form nick!user@host, its first "!" before its first
    "@" and the nick not empty, is cut at the two marks: the three fields
    with the marks between them give the prefix back, and the part before
    the "@" holds no other "@". *)
Theorem prefix_recomposed (raw0 : bytes) (e : Event) (s : str)
    (He : parse raw0 = Ok e) (Hs : source e = Some s)
    (Hord : (0 < find (u "!") s < find (u "@") s)%Z) :
  ∃ n us h,
    nick e = Some n ∧ user e = Some us ∧ host e = Some h
    ∧ s = n ++ u "!" ++ us ++ u "@" ++ h
    ∧ (33 ∉ n) ∧ (64 ∉ n ++ u "!" ++ us).
Proof.
  destruct (parse_Ok_inv raw0 e He) as (rem & fst & _ & _ & Hp & _).
  rewrite Hs in Hp.
  destruct (parse_prefix_cut _ _ _ _ _ _ Hp) as (Hn & Hu & Hh); [lia..|].
  pose proof (find_index_of (u "!") s (find (u "!") s) ltac:(lia) eq_refl)
    as Hi.
  pose proof (find_index_of (u "@") s (find (u "@") s) ltac:(lia) eq_refl)
    as Hj.
  revert Hn Hu Hh Hi Hj Hord.
  generalize (find (u "!") s) (find (u "@") s). intros zi zj.
  intros Hn Hu Hh Hi Hj Hord.
  replace (Z.to_nat (zi + 1)) with (S (Z.to_nat zi)) in * by lia.
  replace (Z.to_nat (zj + 1)) with (S (Z.to_nat zj)) in * by lia.
  assert (Z.to_nat zi < Z.to_nat zj)%nat as Hlt by lia.
  revert Hn Hu Hh Hi Hj Hlt. generalize (Z.to_nat zi) (Z.to_nat zj).
  clear zi zj Hord. intros i j Hn Hu Hh Hi Hj Hlt.
  pose proof (index_of_Some _ _ _ Hi) as Hsi.
  pose proof (index_of_lt _ _ _ Hj) as Hjlen.
  apply index_of_char in Hi as [_ Hni]. apply index_of_char in Hj as [Hat Hnj].
  change (length (u "!")) with 1%nat in Hsi.
  change (length (u "@")) with 1%nat in Hjlen.
  replace (i + 1)%nat with (S i) in Hsi by lia.
  assert (drop (S i) s
          = take (j - S i) (drop (S i) s) ++ u "@" ++ drop (S j) s) as Hrest.
  { rewrite <- (take_drop (j - S i) (drop (S i) s)) at 1. f_equal.
    rewrite drop_drop. replace (S i + (j - S i))%nat with j by lia.
    by apply drop_S. }
  assert (s = take i s ++ u "!" ++ take (j - S i) (drop (S i) s)
              ++ u "@" ++ drop (S j) s) as Hall.
  { rewrite Hsi at 1. by rewrite Hrest at 1. }
  eexists _, _, _. repeat split; [exact Hn|exact Hu|exact Hh|exact Hall|done|].
  replace (take i s ++ u "!" ++ take (j - S i) (drop (S i) s))
    with (take j s); [done|].
  rewrite Hall at 1. rewrite !app_assoc, <- (app_assoc _ (u "@")).
  apply take_app_length'.
  rewrite !length_app, !length_take, length_drop.
  change (length (u "!")) with 1%nat. lia.
Qed.

(** ** More about reading, sending and joining *)

Lemma handle_event_reads (event : Event) (w : World) :
  match (handle_event event w).1 with
  | Ok _ => reads (handle_event event w).2 = S (reads w)
  | Raise _ => reads (handle_event event w).2 = reads w
  end.
Proof.
  unfold handle_event. case_bool_decide as Hc.
  - unfold send_message, encode, stream_write, wait_for_input. run.
    destruct (item (args event) 0) as [arg0|]; [|done]. cbv beta iota.
    destruct (utf8_encode (u "PONG " ++ arg0)) as [data|]; [|done].
    cbv beta iota. simpl. by destruct (stream w).
  - run. rewrite dispatch_spec. unfold wait_for_input. simpl.
    by destruct (stream w).
Qed.

(** The read loop goes on exactly as long as [_read_message] returns: a
    call that returns has armed one more read, and a call that raises, in
    the parser, in the PONG or in the arming itself, has armed none. *)
Theorem read_message_rearms (raw0 : bytes) (w : World) :
  match (_read_message raw0 w).1 with
  | Ok _ => reads (_read_message raw0 w).2 = S (reads w)
  | Raise _ => reads (_read_message raw0 w).2 = reads w
  end.
Proof.
  unfold _read_message. run. destruct (parse raw0) as [e|x]; [|done].
  cbv beta iota.
  destruct (truthy (channel e) && contains (u "MSG") (code e)).
  - cbv beta iota.
    apply (handle_event_reads e (set_log (log w ++ [_]) w)).
  - cbv beta iota. apply handle_event_reads.
Qed.

Lemma handle_event_no_stream (event : Event) (w : World) :
  stream w = None → code event ≠ u "PING" →
  handle_event event w
  = (Raise AttributeError,
     set_callbacks
       (callbacks w ++ map (λ kv, (kv.2, event)) (IRC_COMMAND_REGISTRY w)) w).
Proof.
  intros Hs Hc. unfold handle_event. rewrite bool_decide_false by done. run.
  rewrite dispatch_spec. unfold wait_for_input. simpl. by rewrite Hs.
Qed.

(** Without a stream, an event other than PING is still handed to every
    registered handler before arming the read fails: when AttributeError
    leaves [handle_event], the queue has grown by one callback for every
    entry of the registry, each with this event, so every registered
    function is in it; no read is armed and nothing is logged. *)
Theorem handle_event_detached (event : Event) (w : World)
    (Hs : stream w = None) (Hc : code event ≠ u "PING") :
  let w' := (handle_event event w).2 in
  (handle_event event w).1 = Raise AttributeError
  ∧ callbacks w'
    = callbacks w ++ map (λ kv, (kv.2, event)) (IRC_COMMAND_REGISTRY w)
  ∧ (∀ name func,
       (name, func) ∈ IRC_COMMAND_REGISTRY w → (func, event) ∈ callbacks w')
  ∧ stream w' = None
  ∧ reads w' = reads w
  ∧ log w' = log w.
Proof.
  intros w'. subst w'. rewrite (handle_event_no_stream event w Hs Hc).
  simpl. repeat split; try done.
  intros name func Hin. apply elem_of_app. right.
  apply (list_elem_of_fmap_2 (λ kv : str * Callback, (kv.2, event)) _
           (name, func) Hin).
Qed.

Lemma utf8_encode_refuses (ln : str) (c : char) :
  c ∈ ln → utf8_encode_char c = None → utf8_encode ln = None.
Proof.
  induction ln as [|x ln IH]; [by intros ?%elem_of_nil|].
  intros [->|Hin]%elem_of_cons Hc; simpl.
  - by rewrite Hc.
  - rewrite (IH Hin Hc). by destruct (utf8_encode_char x).
Qed.

(** A line that holds a surrogate code point is refused before anything
    is logged or written: [send_message] raises UnicodeEncodeError and
    leaves the state as it was. *)
Theorem send_message_surrogate (ln : str) (c : char) (w : World)
    (Hin : c ∈ ln) (Hc : 0xD800 ≤ c ≤ 0xDFFF) :
  send_message ln w = (Raise UnicodeEncodeError, w).
Proof.
  unfold send_message, encode. run.
  rewrite (utf8_encode_refuses ln c Hin); [done|].
  unfold utf8_encode_char.
  destruct (N.ltb_spec c 0x80); [lia|]. destruct (N.ltb_spec c 0x800); [lia|].
  destruct (N.ltb_spec c 0x10000); [|lia].
  destruct (N.leb_spec 0xD800 c); [|lia].
  by destruct (N.leb_spec c 0xDFFF); [|lia].
Qed.

(** Joining without a stream: the channel enters the set of joined
    channels, the JOIN line is logged, and then the write fails with
    AttributeError; the set and the wire disagree from then on. *)
Theorem join_detached (name : str) (data : bytes) (w : World)
    (Hs : stream w = None)
    (He : utf8_encode (u "JOIN #" ++ name) = Some data) :
  join name w
  = (Raise AttributeError,
     set_log (log w ++ [DebugSending data])
       (set_channels ({[u "#" ++ name]} ∪ channels w) w))
  ∧ u "#" ++ name ∈ channels (join name w).2.
Proof.
  assert (join name w
          = (Raise AttributeError,
             set_log (log w ++ [DebugSending data])
               (set_channels ({[u "#" ++ name]} ∪ channels w) w))) as H.
  { unfold join. run.
    exact (send_message_detached _ data (set_channels _ w) He Hs). }
  split; [done|]. rewrite H. simpl.
  apply elem_of_union. left. by apply elem_of_singleton.
Qed.

(** ** More about the messages from the other service *)

Lemma send_message_frame (ln : str) (w : World) :
  only_log_and_stream w (send_message ln w).2.
Proof.
  unfold send_message, encode, stream_write. run.
  destruct (utf8_encode ln); [|done]. cbv beta iota. simpl.
  by destruct (stream w).
Qed.

(** [send_from_slack] sends and logs and does nothing else: whatever the
    body and whatever the outcome, it joins no channel, moves no
    highlight, queues no callback and arms no read. *)
Theorem send_from_slack_frame (user0 body : str) (w : World) :
  only_log_and_stream w (send_from_slack user0 body w).2.
Proof.
  unfold send_from_slack, slack_target.
  destruct (contains (u ":") body).
  - destruct (split1 (u ":") body) as [|a [|c [|d l]]]; [done..| |done].
    run. case_bool_decide.
    + apply send_message_frame.
    + exact (send_message_frame _ (set_log (log w ++ [_]) w)).
  - run. destruct (truthy (most_recent_highlight_channel w)); [|done].
    apply send_message_frame.
Qed.

Lemma contains_colon_hash (body : str) :
  contains (u ":") (35 :: body) = contains (u ":") body.
Proof.
  unfold contains. rewrite index_of_cons.
  change (startswith (u ":") (35 :: body)) with false. cbv iota.
  by destruct (index_of (u ":") body).
Qed.

Lemma split1_colon_hash (body left right : str) :
  split1 (u ":") body = [left; right] →
  split1 (u ":") (35 :: body) = [35 :: left; right].
Proof.
  unfold split1. rewrite index_of_cons.
  change (startswith (u ":") (35 :: body)) with false. cbv iota.
  destruct (index_of (u ":") body) as [i|]; [|done].
  by intros [= <- <-].
Qed.

Lemma strip_hash (left : str) :
  strip (one_of (u "#")) (35 :: left) = strip (one_of (u "#")) left.
Proof. done. Qed.

(** A "#" before the channel name in the body makes no difference: the
    body "#chan: text" is treated exactly as "chan: text". *)
Theorem send_from_slack_hash (user0 body : str) (w : World)
    (Hc : contains (u ":") body = true) :
  send_from_slack user0 (35 :: body) w = send_from_slack user0 body w.
Proof.
  unfold send_from_slack, slack_target.
  rewrite contains_colon_hash, Hc.
  assert (∃ left right, split1 (u ":") body = [left; right])
    as (left & right & Hsp).
  { unfold contains in Hc. unfold split1.
    destruct (index_of (u ":") body); [by eexists _, _|done]. }
  by rewrite (split1_colon_hash _ _ _ Hsp), Hsp, strip_hash.
Qed.

(** A body without colon after a highlight: sent to the channel of the
    most recent highlight, as it is, and no error is logged. *)
Lemma send_from_slack_recent (user0 body c : str) (data : bytes)
    (written : list bytes) (w : World) :
  contains (u ":") body = false →
  most_recent_highlight_channel w = Some c → c ≠ [] →
  stream w = Some written →
  utf8_encode
    (u "PRIVMSG " ++ c ++ u " :"
     ++ color_wrap (u "[slack] @" ++ user0 ++ u " said '" ++ body ++ u "'"))
  = Some data →
  send_from_slack user0 body w
  = (Ok tt,
     set_stream (Some (written ++ [data ++ CRLF]))
       (set_log (log w ++ [DebugSending data]) w)).
Proof.
  intros Hc Hm Hne Hs He. unfold send_from_slack, slack_target.
  rewrite Hc. run. rewrite Hm. destruct c as [|x c]; [done|].
  cbn [truthy fmt]. by apply send_to_channel_spec.
Qed.

(** What a forwarded highlight leaves behind. *)
Lemma ping_insights_hit (event : Event) (r : Response) (w : World) :
  (contains_highlight event w).1 = Ok true →
  requests_post hook_url (highlight_body event) = Ok r →
  (ping_insights event w).1 = Ok tt
  ∧ stream (ping_insights event w).2 = stream w
  ∧ most_recent_highlight_channel (ping_insights event w).2 = channel event.
Proof.
  intros Hhit Hpost. destruct (contains_highlight_frame event w) as [l Hl].
  unfold ping_insights, post. fold (highlight_body event). run.
  destruct (contains_highlight event w) as [r0 w0]. simpl in Hhit, Hl.
  subst r0 w0. cbv iota. simpl. by rewrite Hpost.
Qed.

(** The way back: after a highlight in a channel has been forwarded, a
    body without colon from the other service is sent to that channel. *)
Theorem reply_follows_highlight (event : Event) (r : Response) (c : str)
    (user0 body : str) (data : bytes) (written : list bytes) (w : World)
    (Hhit : (contains_highlight event w).1 = Ok true)
    (Hpost : requests_post hook_url (highlight_body event) = Ok r)
    (Hch : channel event = Some c) (Hne : c ≠ [])
    (Hbody : contains (u ":") body = false)
    (Hs : stream w = Some written)
    (He : utf8_encode
            (u "PRIVMSG " ++ c ++ u " :"
             ++ color_wrap
                  (u "[slack] @" ++ user0 ++ u " said '" ++ body ++ u "'"))
          = Some data) :
  (ping_insights event w).1 = Ok tt
  ∧ (send_from_slack user0 body (ping_insights event w).2).1 = Ok tt
  ∧ stream (send_from_slack user0 body (ping_insights event w).2).2
    = Some (written ++ [data ++ CRLF]).
Proof.
  destruct (ping_insights_hit event r w Hhit Hpost) as (H1 & H2 & H3).
  split; [done|].
  rewrite (send_from_slack_recent user0 body c data written); try done.
  - by rewrite H3.
  - by rewrite H2.
Qed.

Lemma index_of_char_first (c : char) (pre post : str) :
  c ∉ pre → index_of [c] (pre ++ c :: post) = Some (length pre).
Proof.
  induction pre as [|x pre IH]; intros Hnot.
  - apply index_of_here. simpl. by rewrite N.eqb_refl.
  - apply not_elem_of_cons in Hnot as [Hne Hnot].
    change ((x :: pre) ++ c :: post) with (x :: pre ++ c :: post).
    rewrite index_of_cons. simpl startswith.
    destruct (N.eqb_spec c x); [done|]. simpl andb. by rewrite IH.
Qed.

Lemma lstrip_none {A} (p : A → bool) (s : list A) :
  Forall (λ x, p x = false) s → lstrip p s = s.
Proof. destruct 1 as [|x s Hx _]; simpl; [done|]. by rewrite Hx. Qed.

Lemma rstrip_none {A} (p : A → bool) (s : list A) :
  Forall (λ x, p x = false) s → rstrip p s = s.
Proof.
  induction 1 as [|x s Hx _ IH]; simpl; [done|]. rewrite IH, Hx.
  by destruct s.
Qed.

Lemma strip_hash_free (name : str) :
  35 ∉ name → strip (one_of (u "#")) name = name.
Proof.
  intros Hn.
  assert (Forall (λ x, one_of (u "#") x = false) name) as H.
  { apply Forall_forall. intros x Hx. unfold one_of. simpl.
    rewrite orb_false_r. apply N.eqb_neq. by intros ->. }
  unfold strip. by rewrite lstrip_none, rstrip_none.
Qed.

(** A channel joined by a name without "#" and ":" can be addressed from
    the other service by that name: after [join(name)], the body
    "name:text" is sent to it and no error is logged. *)
Theorem joined_channel_reachable (name text user0 : str) (w : World)
    (written : list bytes) (jd pd : bytes)
    (Hhash : 35 ∉ name) (Hcolon : 58 ∉ name)
    (Hs : stream w = Some written)
    (Hj : utf8_encode (u "JOIN #" ++ name) = Some jd)
    (Hp : utf8_encode
            (u "PRIVMSG " ++ (u "#" ++ name) ++ u " :"
             ++ color_wrap
                  (u "[slack] @" ++ user0 ++ u " said '"
                   ++ strip isspace text ++ u "'"))
          = Some pd) :
  (send_from_slack user0 (name ++ u ":" ++ text) (join name w).2).1 = Ok tt
  ∧ stream (send_from_slack user0 (name ++ u ":" ++ text) (join name w).2).2
    = Some (written ++ [jd ++ CRLF; pd ++ CRLF])
  ∧ log (send_from_slack user0 (name ++ u ":" ++ text) (join name w).2).2
    = log w ++ [DebugSending jd; DebugSending pd].
Proof.
  rewrite (join_spec name jd written w Hj Hs). cbn [snd].
  pose proof (index_of_char_first 58 name text Hcolon) as Hi.
  rewrite (send_from_slack_joined user0 (name ++ u ":" ++ text) name text pd
             (written ++ [jd ++ CRLF])).
  - simpl. by rewrite <- !app_assoc.
  - unfold contains. change (u ":" ++ text) with (58 :: text).
    change (u ":") with [58]. by rewrite Hi.
  - unfold split1. change (u ":" ++ text) with (58 :: text).
    change (u ":") with [58]. rewrite Hi. f_equal; [by rewrite take_app_length|].
    f_equal. by rewrite <- drop_drop, drop_app_length.
  - rewrite strip_hash_free by done. simpl.
    apply elem_of_union. left. by apply elem_of_singleton.
  - done.
  - by rewrite strip_hash_free.
Qed.

(** ** More about highlights *)

(** An event that is no PRIVMSG goes through the forward handler without
    a trace: nothing is posted, nothing logged, and no exception is raised
    even when the event has no channel. *)
Theorem ping_insights_other_codes (event : Event) (w : World)
    (Hc : code event ≠ u "PRIVMSG") :
  ping_insights event w = (Ok tt, w).
Proof.
  unfold ping_insights, bind. rewrite contains_highlight_unfold.
  by rewrite bool_decide_false.
Qed.

Lemma find_some_matching {A} (p : A → bool) (l : list A) (x : A) :
  x ∈ l → p x = true → is_Some (List.find p l).
Proof.
  induction l as [|y l IH]; [by intros ?%elem_of_nil|].
  intros [->|Hin]%elem_of_cons Hx; simpl.
  - rewrite Hx. by eexists.
  - destruct (p y); [by eexists|]. by apply IH.
Qed.

Lemma find_none_matching {A} (p : A → bool) (l : list A) :
  Forall (λ x, p x = false) l → List.find p l = None.
Proof. induction 1 as [|x l Hx _ IH]; simpl; [done|]. by rewrite Hx. Qed.

Lemma contains_empty (m : str) : contains [] m = true.
Proof. by destruct m. Qed.

(** An empty highlight catches everything: with the empty string or the
    empty list among the highlights that apply to a channel, every PRIVMSG
    in that channel is a highlight, whatever it says. *)
Theorem empty_trigger_matches_all (event : Event) (w : World) (c : str)
    (hl : Trigger)
    (Hc : code event = u "PRIVMSG") (Hch : channel event = Some c)
    (Hin : hl ∈ highlights_get (u "all")
                ++ highlights_get (strip (one_of (u "#")) c))
    (Hhl : hl = Single [] ∨ hl = AllOf []) :
  (contains_highlight event w).1 = Ok true.
Proof.
  rewrite contains_highlight_unfold, bool_decide_true, Hch by done.
  destruct (find_some_matching (trigger_matches (lower (msg event))) _ hl Hin)
    as [x ->]; [|done].
  destruct Hhl as [-> | ->]; [apply contains_empty|done].
Qed.

Lemma has_upper_no_match (m : str) (hl : Trigger) :
  (∀ x, x ∈ m → ¬ 65 ≤ x ≤ 90) → has_upper hl →
  trigger_matches m hl = false.
Proof.
  intros Hm Hhl.
  assert (∀ h, (∃ x, x ∈ h ∧ 65 ≤ x ≤ 90) → contains h m = false) as Hno.
  { intros h (x & Hx & Hup). destruct (contains h m) eqn:E; [|done].
    apply contains_substring in E as (pre & post & ->).
    destruct (Hm x); [|done]. rewrite !elem_of_app. auto. }
  destruct hl as [h|hs]; simpl in *; [by apply Hno|].
  induction Hhl as [h hs Hh|h hs _ IH]; simpl.
  - by rewrite (Hno h Hh).
  - rewrite IH. apply andb_false_r.
Qed.

(** Highlights have to be written in lower case: when [str.lower] leaves
    no upper-case ASCII letter, as it does, and every highlight that
    applies to a channel has a term with such a letter, no message in that
    channel is ever a highlight. *)
Theorem uppercase_trigger_never_matches (event : Event) (w : World)
    (c : str)
    (Hlower : ∀ s x, x ∈ lower s → ¬ 65 ≤ x ≤ 90)
    (Hch : channel event = Some c)
    (Hrules : Forall has_upper
                (highlights_get (u "all")
                 ++ highlights_get (strip (one_of (u "#")) c))) :
  contains_highlight event w = (Ok false, w).
Proof.
  rewrite contains_highlight_unfold, Hch. case_bool_decide; [|done].
  rewrite find_none_matching; [done|].
  eapply Forall_impl; [exact Hrules|]. intros hl Hhl. simpl.
  apply has_upper_no_match; [|done]. apply Hlower.
Qed.

(** ** [broadcast] and [connect] *)

Lemma world_eta (w : World) :
  set_stream (stream w) (set_log (log w) w) = w.
Proof. by destruct w. Qed.

(** A run of [send_to_channel] over a list of channels whose lines all
    encode: one chunk and one log record for each, in the order of the
    list. *)
Lemma for_each_send (msg : str) (chans : list str) (datas : list bytes)
    (written : list bytes) (w : World) :
  Forall2 (λ c d,
     utf8_encode (u "PRIVMSG " ++ c ++ u " :" ++ color_wrap msg) = Some d)
    chans datas →
  stream w = Some written →
  for_each chans (λ c, send_to_channel c msg) w
  = (Ok tt,
     set_stream (Some (written ++ map (λ d, d ++ CRLF) datas))
       (set_log (log w ++ map DebugSending datas) w)).
Proof.
  intros H. revert written w.
  induction H as [|c d chans datas Hd _ IH]; intros written w Hs.
  - simpl. rewrite !app_nil_r, <- Hs. by rewrite world_eta.
  - simpl for_each. run.
    rewrite (send_to_channel_spec c msg d written w Hd Hs).
    rewrite (IH (written ++ [d ++ CRLF])) by done.
    unfold set_stream, set_log. simpl. by rewrite <- !app_assoc.
Qed.

(** [broadcast] on an attached stream, all lines encoding: every joined
    channel gets the text once, as one PRIVMSG line each, and nothing but
    the stream and the log changes. The order is the order in which the
    set is visited. *)
Theorem broadcast_spec (msg : str) (w : World) (written : list bytes)
    (datas : list bytes)
    (Hperm : set_iter (channels w) ≡ₚ elements (channels w))
    (Hs : stream w = Some written)
    (He : Forall2 (λ c d,
             utf8_encode (u "PRIVMSG " ++ c ++ u " :" ++ color_wrap msg)
             = Some d)
            (set_iter (channels w)) datas) :
  broadcast msg w
  = (Ok tt,
     set_stream (Some (written ++ map (λ d, d ++ CRLF) datas))
       (set_log (log w ++ map DebugSending datas) w))
  ∧ length datas = size (channels w).
Proof.
  split.
  - unfold broadcast. run. by apply for_each_send.
  - apply Forall2_length in He. rewrite <- He.
    by rewrite Hperm.
Qed.

(** With no channel joined [broadcast] does nothing at all, and does not
    fail either when the client has no stream. *)
Theorem broadcast_nobody (msg : str) (w : World)
    (Hperm : set_iter (channels w) ≡ₚ elements (channels w))
    (Hnone : channels w = ∅) :
  broadcast msg w = (Ok tt, w).
Proof.
  unfold broadcast. run. rewrite Hnone in Hperm. rewrite Hnone.
  rewrite elements_empty in Hperm. by apply Permutation_nil_r in Hperm as ->.
Qed.

(** A run of [join] over a list of names whose lines all encode. *)
Lemma for_each_join (names : list str) (datas : list bytes)
    (written : list bytes) (w : World) :
  Forall2 (λ n d, utf8_encode (u "JOIN #" ++ n) = Some d) names datas →
  stream w = Some written →
  for_each names join w
  = (Ok tt,
     set_stream (Some (written ++ map (λ d, d ++ CRLF) datas))
       (set_log (log w ++ map DebugSending datas)
          (set_channels
             (list_to_set (map (λ n, u "#" ++ n) names) ∪ channels w) w))).
Proof.
  intros H. revert written w.
  induction H as [|n d names datas Hd _ IH]; intros written w Hs.
  - simpl. rewrite !app_nil_r, (left_id_L ∅ (∪)), <- Hs.
    by destruct w.
  - simpl for_each. run. rewrite (join_spec n d written w Hd Hs).
    rewrite (IH (written ++ [d ++ CRLF])) by done.
    unfold set_stream, set_log, set_channels. simpl.
    rewrite <- !app_assoc. simpl. do 2 f_equal.
    rewrite (assoc_L (∪)). f_equal. apply (comm_L (∪)).
Qed.

(** [connect] when the socket opens and the lines encode: on the new
    stream, and on nothing older, go NICK, USER and one JOIN for each
    configured channel, in that order; the configured channels are added
    to those the client had, which a reconnect therefore keeps; and one
    read is armed. *)
Theorem connect_registers (c : Conn) (nd ud : bytes) (datas : list bytes)
    (Hsock : socket_connects = true)
    (Hn : utf8_encode (u "NICK " ++ irc_nick) = Some nd)
    (Hu : utf8_encode (u "USER " ++ irc_nick ++ u " 0 * :" ++ irc_nick)
          = Some ud)
    (Hj : Forall2 (λ n d, utf8_encode (u "JOIN #" ++ n) = Some d)
            irc_channels datas) :
  ∃ w,
    connect c = (Returned, mkConn w false)
    ∧ stream w
      = Some ([nd ++ CRLF; ud ++ CRLF] ++ map (λ d, d ++ CRLF) datas)
    ∧ channels w
      = list_to_set (map (λ n, u "#" ++ n) irc_channels)
        ∪ channels (client c)
    ∧ reads w = S (reads (client c)).
Proof.
  unfold connect. rewrite Hsock.
  set (c1 := match stream (client c) with
             | Some _ => mkConn (client c) true
             | None => c
             end).
  assert (client c1 = client c) as Hc by (unfold c1; by destruct (stream _)).
  rewrite Hc. unfold register. run.
  rewrite (send_message_spec _ nd [] (set_stream (Some []) (client c)) Hn)
    by done.
  erewrite (send_message_spec _ ud [nd ++ CRLF]); [|exact Hu|done].
  erewrite (for_each_join irc_channels datas); [|exact Hj|done].
  unfold wait_for_input. simpl. eexists. split; [done|]. by simpl.
Qed.

(** [connect] when the socket cannot be opened: the OSError leaves the
    call, no line is sent and no channel joined, and a stream the client
    had has been closed by then. *)
Theorem connect_refused (c : Conn) (Hsock : socket_connects = false) :
  ∃ c',
    connect c = (RaisedOSError, c')
    ∧ client c' = client c
    ∧ stream_closed c'
      = match stream (client c) with
        | Some _ => true
        | None => stream_closed c
        end.
Proof.
  unfold connect. rewrite Hsock. eexists. split; [done|].
  by destruct (stream (client c)).
Qed.

(** ** More about [color_wrap] *)

Lemma color_wrap_no_dollar (s : str) : 36 ∉ s → color_wrap s = s.
Proof.
  intros Hs. apply color_wrap_plain. intros pre name post -> _.
  destruct Hs. unfold placeholder. change (u "${") with [36; 123].
  rewrite !elem_of_app, elem_of_cons. auto.
Qed.

(** Text without a dollar sign goes out as it is: [send_to_channel] writes
    the PRIVMSG line with the text unchanged. *)
Theorem send_to_channel_plain (chan ln : str) (data : bytes)
    (written : list bytes) (w : World)
    (Hd : 36 ∉ ln)
    (He : utf8_encode (u "PRIVMSG " ++ chan ++ u " :" ++ ln) = Some data)
    (Hs : stream w = Some written) :
  send_to_channel chan ln w
  = (Ok tt,
     set_stream (Some (written ++ [data ++ CRLF]))
       (set_log (log w ++ [DebugSending data]) w)).
Proof.
  apply send_to_channel_spec; [|done]. by rewrite color_wrap_no_dollar.
Qed.

Lemma _wrap_length (name : str) :
  (length (_wrap name) ≤ length name + 3)%nat.
Proof.
  rewrite _wrap_spec. destruct (dict_get colors name) as [code|] eqn:E; [|lia].
  destruct (colors_two_digits _ _ E) as (d1 & d2 & -> & _). simpl. lia.
Qed.

(** The markup never makes a text longer: what replaces a placeholder is
    shorter than the placeholder. *)
Theorem color_wrap_length (s : str) :
  (length (color_wrap s) ≤ length s)%nat.
Proof.
  remember (length s) as n eqn:Hn. revert s Hn.
  induction (lt_wf n) as [n _ IH]. intros s ->.
  destruct s as [|c tl]; [done|]. rewrite color_wrap_cons.
  destruct (match_at (c :: tl)) as [[w rest]|] eqn:E.
  - pose proof (match_at_shorter _ _ _ E) as Hlt.
    apply match_at_inv in E as [E _].
    pose proof (IH (length rest) Hlt rest eq_refl) as Hrest.
    pose proof (_wrap_length w) as Hw.
    apply (f_equal length) in E. unfold placeholder in E.
    rewrite !length_app in E. rewrite length_app. simpl in *. lia.
  - simpl. pose proof (IH (length tl) ltac:(simpl; lia) tl eq_refl). lia.
Qed.

End Bot.

(** ** The theorems at concrete inputs *)

(** The PING of the examples, answered on the attached stream with nothing
    queued, and a PRIVMSG, queued for the one registered handler with
    nothing written. *)
Lemma handle_event_spec_witness :
  let wp := (handle_event ping_event attached).2 in
  let wq := (handle_event hello_event attached).2 in
  ((handle_event ping_event attached).1 = Ok tt
   ∧ stream wp = Some ([] ++ [b "PONG server.example" ++ CRLF])
   ∧ log wp = [] ++ [DebugSending (b "PONG server.example")]
   ∧ callbacks wp = []
   ∧ reads wp = 1%nat
   ∧ channels wp = ∅
   ∧ most_recent_highlight_channel wp = None
   ∧ most_recent_highlight_nick wp = None
   ∧ IRC_COMMAND_REGISTRY wp = [(u "ping", ping_insights_cb)]
   ∧ posted wp = [])
  ∧ ((handle_event hello_event attached).1 = Ok tt
     ∧ callbacks wq = [(ping_insights_cb, hello_event)]
     ∧ stream wq = Some []
     ∧ log wq = []
     ∧ reads wq = 1%nat
     ∧ channels wq = ∅
     ∧ most_recent_highlight_channel wq = None
     ∧ most_recent_highlight_nick wq = None
     ∧ IRC_COMMAND_REGISTRY wq = [(u "ping", ping_insights_cb)]
     ∧ posted wq = []).
Proof.
  split.
  - exact (proj1 (handle_event_spec ping_event attached [] eq_refl)
             (u "server.example") [] (b "PONG server.example")
             eq_refl eq_refl eq_refl).
  - apply (proj2 (handle_event_spec hello_event attached [] eq_refl)).
    by vm_compute.
Defined.

(** The PING of the specification: answered on the wire, nothing queued. *)
Example handle_ping_example :
  stream (handle_event ping_event attached).2
  = Some [b "PONG server.example" ++ CRLF]
  ∧ callbacks (handle_event ping_event attached).2 = [].
Proof. by vm_compute. Qed.

(** The same from the bytes on the wire, and what an empty line does. *)
Example read_message_examples :
  _read_message (b "PING :server.example" ++ [x0d; x0a]) attached
  = (Ok tt,
     set_reads 1
       (set_stream (Some [b "PONG server.example" ++ CRLF])
          (set_log [DebugSending (b "PONG server.example")] attached)))
  ∧ _read_message [x0d; x0a] attached = (Raise IndexError, attached).
Proof. by vm_compute. Qed.

(** Any other line is queued for the one registered handler. *)
Example handle_privmsg_example :
  stream (handle_event hello_event attached).2 = Some []
  ∧ callbacks (handle_event hello_event attached).2
    = [(ping_insights_cb, hello_event)].
Proof. by vm_compute. Qed.

(** Joining chan twice on the fresh, attached client. *)
Lemma join_twice_witness :
  ∃ w1 w2,
    join (u "chan") attached = (Ok tt, w1)
    ∧ join (u "chan") w1 = (Ok tt, w2)
    ∧ channels w1 = {[u "#chan"]} ∪ channels attached
    ∧ channels w2 = channels w1
    ∧ length (filter (λ c, c = u "#chan") (elements (channels w2))) = 1%nat
    ∧ stream w2 = Some [b "JOIN #chan" ++ CRLF; b "JOIN #chan" ++ CRLF].
Proof.
  exact (join_twice (u "chan") attached [] (b "JOIN #chan") eq_refl eq_refl).
Defined.

(** Two joins of one channel from the fresh client: one channel, two lines. *)
Example join_twice_example :
  let w2 := ((do _ <- join (u "chan"); join (u "chan")) attached).2 in
  elements (channels w2) = [u "#chan"]
  ∧ stream w2 = Some [b "JOIN #chan" ++ CRLF; b "JOIN #chan" ++ CRLF].
Proof. by vm_compute. Qed.

(** The highlight examples of the specification, under the rules
    [{"all": ["urgent"], "dev": [["build", "failed"]]}]. *)
Example highlight_examples :
  let says chan text :=
    mkEvent [] [] None (Some (u "alice")) None None (u "PRIVMSG")
      [chan; text] text (Some chan) in
  let hit e := (contains_highlight ascii_lower sample_highlights e init).1 in
  hit (says (u "#dev") (u "the BUILD failed today")) = Ok true
  ∧ hit (says (u "#ops") (u "the BUILD failed today")) = Ok false
  ∧ hit (says (u "#ops") (u "this is urgent")) = Ok true
  ∧ hit (says (u "#dev") (u "this is URGENT, the build failed")) = Ok true
  ∧ log (contains_highlight ascii_lower sample_highlights
           (says (u "#dev") (u "this is URGENT, the build failed")) init).2
    = [DebugFound (Single (u "urgent"))].
Proof. by vm_compute. Qed.



(** A message to the bot itself has no channel, and the predicate raises. *)
Lemma highlight_unset_channel_raises_witness :
  channel private_event = None
  ∧ contains_highlight ascii_lower sample_highlights private_event init
    = (Raise AttributeError, init)
  ∧ ping_insights ascii_lower sample_highlights sample_hook post_ok
      private_event init
    = (Raise AttributeError, init).
Proof.
  split; [reflexivity|].
  exact (highlight_unset_channel_raises ascii_lower sample_highlights
           sample_hook post_ok private_event init eq_refl eq_refl).
Defined.

(** The build failure in #dev, forwarded to a hook that answers. *)
Lemma ping_insights_forwards_witness :
  posted (ping_insights ascii_lower sample_highlights sample_hook post_ok
            build_event init).2
  = [(sample_hook,
      [(u "text", u "(#dev) alice says: the BUILD failed today")])]
  ∧ (ping_insights ascii_lower sample_highlights sample_hook post_ok
       build_event init).1 = Ok tt
  ∧ most_recent_highlight_channel
      (ping_insights ascii_lower sample_highlights sample_hook post_ok
         build_event init).2 = Some (u "#dev")
  ∧ most_recent_highlight_nick
      (ping_insights ascii_lower sample_highlights sample_hook post_ok
         build_event init).2 = Some (u "alice").
Proof.
  exact (ping_insights_forwards ascii_lower sample_highlights sample_hook
           post_ok build_event init eq_refl).
Defined.

(** C6, as stated, fails: the hook answers the post with status 500, so
    the post did not succeed, and the two fields are set to this event's
    channel and nick all the same. *)
Lemma forward_status_500_counterexample :
  let r :=
    ping_insights ascii_lower sample_highlights sample_hook post_500
      build_event attached in
  (contains_highlight ascii_lower sample_highlights build_event attached).1
  = Ok true
  ∧ post_500 sample_hook (highlight_body build_event)
    = Ok (mkResponse 500 (u "Internal Server Error"))
  ∧ spec_post_succeeded (post_500 sample_hook (highlight_body build_event))
    = false
  ∧ most_recent_highlight_channel attached = None
  ∧ most_recent_highlight_nick attached = None
  ∧ r.1 = Ok tt
  ∧ most_recent_highlight_channel r.2 = Some (u "#dev")
  ∧ most_recent_highlight_nick r.2 = Some (u "alice").
Proof. by vm_compute. Qed.

(** A post that raises leaves the two fields as they were; a post answered
    with status 500 sets them like any other response. *)
Example ping_insights_post_outcomes :
  ping_insights ascii_lower sample_highlights sample_hook post_down
    build_event init
  = (Raise RequestException,
     set_posted [(sample_hook, highlight_body build_event)]
       (set_log [DebugFound (AllOf [u "build"; u "failed"]);
                 DebugSawHighlight] init))
  ∧ most_recent_highlight_channel
      (ping_insights ascii_lower sample_highlights sample_hook post_500
         build_event init).2 = Some (u "#dev").
Proof. by vm_compute. Qed.

(** One placeholder between two plain texts. *)
Lemma color_wrap_spec_witness :
  color_wrap ascii_only (u "hello " ++ placeholder (u "red") ++ u "world")
  = color_wrap ascii_only (u "hello ") ++ (3 :: u "04")
    ++ color_wrap ascii_only (u "world").
Proof.
  apply (proj1 (color_wrap_spec ascii_only) (u "hello ") (u "red")
           (u "world")).
  split; [done|]. by repeat constructor.
Defined.

(** The colour examples of the specification. *)
Example color_wrap_examples :
  color_wrap ascii_only (u "hello ${red}world${reset}")
  = u "hello " ++ [3] ++ u "04world" ++ [3] ++ u "99"
  ∧ color_wrap ascii_only (u "${bogus}") = u "bogus"
  ∧ color_wrap ascii_only (u "${} ${a b} $red {red} ${red")
    = u "${} ${a b} $red {red} ${red".
Proof. by vm_compute. Qed.

(** The routing examples of the specification: a joined channel named in
    the body, and a body without colon after a highlight in #ops. *)
Example send_from_slack_examples :
  stream (send_from_slack ascii_only (u "bob") (u "general: deploy done")
            (set_channels {[u "#general"]} attached)).2
  = Some [b "PRIVMSG #general :[slack] @bob said 'deploy done'" ++ CRLF]
  ∧ log (send_from_slack ascii_only (u "bob") (u "general: deploy done")
           (set_channels {[u "#general"]} attached)).2
    = [DebugSending (b "PRIVMSG #general :[slack] @bob said 'deploy done'")]
  ∧ stream (send_from_slack ascii_only (u "bob") (u "no colon here")
              (set_most_recent_highlight_channel (Some (u "#ops"))
                 attached)).2
    = Some [b "PRIVMSG #ops :[slack] @bob said 'no colon here'" ++ CRLF]
  ∧ send_from_slack ascii_only (u "bob") (u "no colon here") attached
    = (Ok tt, set_log [ErrorNoDestination (u "bob")] attached).
Proof. by vm_compute. Qed.

(** ** Further properties at concrete inputs *)

Lemma ascii_lower_no_upper (s : str) (x : char) :
  x ∈ ascii_lower s → ¬ 65 ≤ x ≤ 90.
Proof.
  unfold ascii_lower. intros (y & -> & _)%list_elem_of_fmap.
  destruct (N.leb_spec 65 y), (N.leb_spec y 90); simpl; lia.
Qed.

Lemma read_message_ping_witness :
  ∃ arg0 data,
    head (args ping_event) = Some arg0
    ∧ utf8_encode (u "PONG " ++ arg0) = Some data
    ∧ _read_message (b "PING :server.example" ++ [x0d; x0a]) attached
      = (Ok tt,
         set_reads (S (reads attached))
           (set_stream (Some ([] ++ [data ++ CRLF]))
              (set_log (log attached ++ [DebugSending data]) attached))).
Proof.
  exact (read_message_ping _ ping_event attached [] parse_ping
           eq_refl eq_refl).
Defined.

Lemma parse_terminators_witness :
  parse (b "PING :server.example" ++ [x0d; x0d; x0a; x0a])
  = parse (b "PING :server.example").
Proof. apply parse_terminators. by repeat constructor. Defined.


Lemma only_last_argument_has_spaces_witness :
  (32 ∉ code hello_event)
  ∧ Forall (λ a, 32 ∉ a) (removelast (args hello_event)).
Proof. exact (only_last_argument_has_spaces _ hello_event parse_hello). Defined.

Lemma prefix_recomposed_witness :
  ∃ n us h,
    nick hello_event = Some n ∧ user hello_event = Some us
    ∧ host hello_event = Some h
    ∧ u "nick!user@host" = n ++ u "!" ++ us ++ u "@" ++ h
    ∧ (33 ∉ n) ∧ (64 ∉ n ++ u "!" ++ us).
Proof.
  exact (prefix_recomposed _ hello_event (u "nick!user@host") parse_hello
           eq_refl (conj eq_refl eq_refl)).
Defined.

Lemma parsed_text_encodes_witness :
  Forall (λ a, is_Some (utf8_encode a)) (args hello_event)
  ∧ is_Some (utf8_encode (msg hello_event)).
Proof. exact (parsed_text_encodes _ hello_event parse_hello). Defined.

Lemma handle_event_detached_witness :
  (handle_event hello_event init).1 = Raise AttributeError
  ∧ callbacks (handle_event hello_event init).2
    = [(ping_insights_cb, hello_event)]
  ∧ stream (handle_event hello_event init).2 = None
  ∧ reads (handle_event hello_event init).2 = 0%nat
  ∧ log (handle_event hello_event init).2 = [].
Proof.
  destruct (handle_event_detached hello_event init eq_refl)
    as (H1 & H2 & _ & H3 & H4 & H5); [by vm_compute|].
  exact (conj H1 (conj H2 (conj H3 (conj H4 H5)))).
Defined.

Lemma send_message_surrogate_witness :
  send_message (u "hi " ++ [0xD83D]) attached
  = (Raise UnicodeEncodeError, attached).
Proof.
  apply (send_message_surrogate _ 0xD83D); [|lia].
  apply elem_of_app. right. apply list_elem_of_here.
Defined.

Lemma join_detached_witness :
  join (u "chan") init
  = (Raise AttributeError,
     set_log (log init ++ [DebugSending (b "JOIN #chan")])
       (set_channels ({[u "#chan"]} ∪ channels init) init))
  ∧ u "#chan" ∈ channels (join (u "chan") init).2.
Proof. exact (join_detached (u "chan") (b "JOIN #chan") init eq_refl eq_refl). Defined.

Lemma send_from_slack_hash_witness :
  send_from_slack ascii_only (u "bob") (u "#ops: restart done") in_ops
  = send_from_slack ascii_only (u "bob") (u "ops: restart done") in_ops.
Proof.
  exact (send_from_slack_hash ascii_only (u "bob") (u "ops: restart done")
           in_ops eq_refl).
Defined.

Lemma reply_follows_highlight_witness :
  (ping_insights ascii_lower sample_highlights sample_hook post_ok
     build_event attached).1 = Ok tt
  ∧ (send_from_slack ascii_only (u "bob") (u "on it")
       (ping_insights ascii_lower sample_highlights sample_hook post_ok
          build_event attached).2).1 = Ok tt
  ∧ stream
      (send_from_slack ascii_only (u "bob") (u "on it")
         (ping_insights ascii_lower sample_highlights sample_hook post_ok
            build_event attached).2).2
    = Some ([] ++ [b "PRIVMSG #dev :[slack] @bob said 'on it'" ++ CRLF]).
Proof.
  apply (reply_follows_highlight ascii_only ascii_lower sample_highlights
           sample_hook post_ok build_event (mkResponse 200 (u "ok"))
           (u "#dev") (u "bob") (u "on it")); by vm_compute.
Defined.

Lemma joined_channel_reachable_witness :
  (send_from_slack ascii_only (u "bob") (u "ops" ++ u ":" ++ u " restart done")
     (join (u "ops") attached).2).1 = Ok tt
  ∧ stream
      (send_from_slack ascii_only (u "bob")
         (u "ops" ++ u ":" ++ u " restart done") (join (u "ops") attached).2).2
    = Some ([] ++ [b "JOIN #ops" ++ CRLF;
                   b "PRIVMSG #ops :[slack] @bob said 'restart done'" ++ CRLF])
  ∧ log
      (send_from_slack ascii_only (u "bob")
         (u "ops" ++ u ":" ++ u " restart done") (join (u "ops") attached).2).2
    = log attached
      ++ [DebugSending (b "JOIN #ops");
          DebugSending (b "PRIVMSG #ops :[slack] @bob said 'restart done'")].
Proof.
  apply (joined_channel_reachable ascii_only (u "ops") (u " restart done")
           (u "bob") attached []); try reflexivity;
    intros H%list_elem_of_In; vm_compute in H; intuition discriminate.
Defined.

Lemma ping_insights_other_codes_witness :
  ping_insights ascii_lower sample_highlights sample_hook post_ok
    ping_event init
  = (Ok tt, init).
Proof. apply ping_insights_other_codes. by vm_compute. Defined.

Lemma empty_trigger_matches_all_witness :
  (contains_highlight ascii_lower catch_all_highlights hello_event init).1
  = Ok true.
Proof.
  apply (empty_trigger_matches_all ascii_lower catch_all_highlights
           hello_event init (u "#chan") (Single []));
    [reflexivity|reflexivity| |by left].
  vm_compute. apply list_elem_of_here.
Defined.

Lemma uppercase_trigger_never_matches_witness :
  contains_highlight ascii_lower shouting_highlights
    (mkEvent [] [] None None None None (u "PRIVMSG")
       [u "#dev"; u "this is URGENT"] (u "this is URGENT") (Some (u "#dev")))
    init
  = (Ok false, init).
Proof.
  apply (uppercase_trigger_never_matches ascii_lower shouting_highlights _
           init (u "#dev")); [apply ascii_lower_no_upper|reflexivity|].
  change (Forall has_upper [Single (u "URGENT")]).
  constructor; [|constructor].
  exists 85. split; [apply list_elem_of_here|lia].
Defined.

Lemma send_to_channel_plain_witness :
  send_to_channel ascii_only (u "#ops") (u "deploy done") attached
  = (Ok tt,
     set_stream (Some ([] ++ [b "PRIVMSG #ops :deploy done" ++ CRLF]))
       (set_log (log attached ++ [DebugSending (b "PRIVMSG #ops :deploy done")])
          attached)).
Proof.
  apply send_to_channel_plain; try reflexivity.
  intros H%list_elem_of_In; vm_compute in H; intuition discriminate.
Defined.

Lemma broadcast_spec_witness :
  broadcast ascii_only elements (u "back in 5") in_ops
  = (Ok tt,
     set_stream
       (Some ([] ++ map (λ d, d ++ CRLF) [b "PRIVMSG #ops :back in 5"]))
       (set_log (log in_ops ++ map DebugSending [b "PRIVMSG #ops :back in 5"])
          in_ops))
  ∧ length [b "PRIVMSG #ops :back in 5"] = size (channels in_ops).
Proof.
  apply (broadcast_spec ascii_only elements (u "back in 5") in_ops []);
    [reflexivity|reflexivity|].
  change (elements (channels in_ops)) with [u "#ops"].
  by repeat constructor.
Defined.

Lemma broadcast_nobody_witness :
  broadcast ascii_only elements (u "back in 5") init = (Ok tt, init).
Proof. by apply broadcast_nobody. Defined.

Lemma connect_registers_witness :
  ∃ w,
    connect (u "wormhole") [u "dev"; u "ops"] true (mkConn in_ops false)
    = (Returned, mkConn w false)
    ∧ stream w
      = Some ([b "NICK wormhole" ++ CRLF;
               b "USER wormhole 0 * :wormhole" ++ CRLF]
              ++ map (λ d, d ++ CRLF) [b "JOIN #dev"; b "JOIN #ops"])
    ∧ channels w
      = list_to_set (map (λ n, u "#" ++ n) [u "dev"; u "ops"])
        ∪ channels (client (mkConn in_ops false))
    ∧ reads w = S (reads (client (mkConn in_ops false))).
Proof.
  apply connect_registers; try reflexivity. by repeat constructor.
Defined.
